(** * ESP32 KY-024 speed telemetry firmware: pulse capture, estimator, sampler

    A shallow embedding of [src/ESP32_Firmware.ino]: the edge interrupt
    handler [isr_ky024], the helpers [rpmFromInterval] and [speedMpsFromRPM],
    the packed [Telemetry] record and the body of [loop].

    Fixed-width unsigned integers are integers of [Z] with the wrap-around
    written out; [float] and [double] are the binary32 and binary64
    instances of the IEEE-754 specification of the Standard Library
    ([SpecFloat], round to nearest, ties to even). *)

From Stdlib Require Import ZArith Lia List Bool QArith Qabs Qpower Lqa.
From Stdlib Require Import Floats.SpecFloat.
From coqutil Require Import Byte Word.LittleEndianList.
Import ListNotations.
Local Open Scope Z_scope.

(** ** Fixed-width unsigned integers *)

Module UInt.

(** Conversion of an integer to [uint8_t], [uint16_t], [uint32_t]. *)
Definition u8 (x : Z) : Z := x mod 2 ^ 8.
Definition u16 (x : Z) : Z := x mod 2 ^ 16.
Definition u32 (x : Z) : Z := x mod 2 ^ 32.

(** [a - b] and [a + b] on [uint32_t]. *)
Definition sub32 (a b : Z) : Z := u32 (a - b).
Definition add32 (a b : Z) : Z := u32 (a + b).

End UInt.

(** ** Floating point: [float] and [double] *)

Module F32.

Definition prec : Z := 24.
Definition emax : Z := 128.

Definition mul : spec_float -> spec_float -> spec_float := SFmul prec emax.
Definition div : spec_float -> spec_float -> spec_float := SFdiv prec emax.

(** An integer literal or integer value converted to [float]. *)
Definition of_Z (z : Z) : spec_float := binary_normalize prec emax z 0 false.

(** The decimal literal [n/d] rounded to the nearest [float]. *)
Definition of_decimal (n d : Z) : spec_float := div (of_Z n) (of_Z d).

(** [float(x)] for a [double] [x]: rounding to 24 bits of precision. *)
Definition of_double (x : spec_float) : spec_float :=
  match x with
  | S754_finite s m e => binary_round prec emax s m e
  | _ => x
  end.

(** The 32-bit pattern of a [float] (sign, biased exponent, fraction). *)
Definition bits (x : spec_float) : Z :=
  match x with
  | S754_zero s => if s then 2 ^ 31 else 0
  | S754_infinity s => (if s then 2 ^ 31 else 0) + 255 * 2 ^ 23
  | S754_nan => 255 * 2 ^ 23 + 2 ^ 22
  | S754_finite s m e =>
      (if s then 2 ^ 31 else 0) +
      (if Zpos m <? 2 ^ 23 then Zpos m
       else (e + 150) * 2 ^ 23 + (Zpos m - 2 ^ 23))
  end.

End F32.

Module F64.

Definition prec : Z := 53.
Definition emax : Z := 1024.

Definition mul : spec_float -> spec_float -> spec_float := SFmul prec emax.
Definition div : spec_float -> spec_float -> spec_float := SFdiv prec emax.

(** [double(n)] for an unsigned integer [n], and integer-valued literals. *)
Definition of_Z (z : Z) : spec_float := binary_normalize prec emax z 0 false.

End F64.

(** The rational value of a finite float; zero for the others. *)
Definition SF2Q (x : spec_float) : Q :=
  match x with
  | S754_finite s m e =>
      (if s then -1 else 1)%Q * (inject_Z (Zpos m) * Qpower 2 e)%Q
  | _ => 0%Q
  end.

Definition is_nan (x : spec_float) : bool :=
  match x with S754_nan => true | _ => false end.

Definition is_finite (x : spec_float) : bool :=
  match x with S754_zero _ | S754_finite _ _ _ => true | _ => false end.

(** [x >= 0] as the C comparison on floats: false on NaN, true on both
    zeros. *)
Definition fge0 (x : spec_float) : bool :=
  match SFcompare (S754_zero false) x with
  | Some (Lt | Eq) => true
  | _ => false
  end.

(** [0 < x] as the C comparison on floats. *)
Definition fgt0 (x : spec_float) : bool :=
  match SFcompare (S754_zero false) x with
  | Some Lt => true
  | _ => false
  end.

(** ** The firmware *)

Module Firmware.
Import UInt.

(** The [constexpr] configuration block (wheel, sensor, timing). *)
Record Config := {
  WHEEL_CIRCUMFERENCE_M : spec_float;   (* float *)
  MAGNETS_PER_REV : Z;                  (* uint8_t *)
  MIN_PULSE_GAP_US : Z;                 (* uint32_t *)
  NO_PULSE_TIMEOUT_MS : Z               (* uint32_t *)
}.

(** [0.210f]: the [float] nearest to 21/100. *)
Definition lit_0_210f : spec_float := S754_finite false 14092861 (-26).
(** [3.6f]: the [float] nearest to 36/10. *)
Definition lit_3_6f : spec_float := S754_finite false 15099494 (-22).
(** [60.0f] and [0.0f]. *)
Definition lit_60f : spec_float := S754_finite false 15728640 (-18).
Definition lit_0f : spec_float := S754_zero false.
(** The [double] literals [1e6] and [60.0]. *)
Definition lit_1e6 : spec_float := S754_finite false 8589934592000000 (-33).
Definition lit_60 : spec_float := S754_finite false 8444249301319680 (-47).

(** The values the sketch ships with. *)
Definition stock : Config := {|
  WHEEL_CIRCUMFERENCE_M := lit_0_210f;
  MAGNETS_PER_REV := 1;
  MIN_PULSE_GAP_US := 2000;
  NO_PULSE_TIMEOUT_MS := 600
|}.

(** The three [volatile uint32_t] globals written by the interrupt
    handler. *)
Record Tracker := {
  g_pulseCount : Z;
  g_lastPulseMicros : Z;
  g_lastIntervalMicros : Z
}.

(** Their initialisers: all zero. *)
Definition startup : Tracker :=
  {| g_pulseCount := 0; g_lastPulseMicros := 0; g_lastIntervalMicros := 0 |}.

(** [isr_ky024]: [micros] is the value the call [micros()] returns. *)
Definition isr_ky024 (cfg : Config) (micros : Z) (t : Tracker) : Tracker :=
  let now := u32 micros in
  let gap := sub32 now (g_lastPulseMicros t) in
  if u32 (MIN_PULSE_GAP_US cfg) <=? gap then
    {| g_pulseCount := add32 (g_pulseCount t) 1;
       g_lastPulseMicros := now;
       g_lastIntervalMicros := gap |}
  else t.

(** [rpmFromInterval(uint32_t intervalMicros, uint8_t magnetsPerRev)]. *)
Definition rpmFromInterval (intervalMicros magnetsPerRev : Z) : spec_float :=
  let intervalMicros := u32 intervalMicros in
  let magnetsPerRev := u8 magnetsPerRev in
  if (intervalMicros =? 0) || (magnetsPerRev =? 0) then lit_0f
  else
    let rev_per_sec :=
      F64.div lit_1e6
              (F64.mul (F64.of_Z intervalMicros) (F64.of_Z magnetsPerRev)) in
    F32.of_double (F64.mul rev_per_sec lit_60).

(** [speedMpsFromRPM(float rpm, float circumference_m)]. *)
Definition speedMpsFromRPM (rpm circumference_m : spec_float) : spec_float :=
  F32.div (F32.mul rpm circumference_m) lit_60f.

(** [struct Telemetry], declared under [#pragma pack(push, 1)]. *)
Record Telemetry := {
  speed_mps : spec_float;   (* float *)
  speed_kph : spec_float;   (* float *)
  rpm : spec_float;         (* float *)
  hall_raw : Z;             (* uint16_t *)
  millis_ts : Z             (* uint32_t *)
}.

(** [Telemetry tx{}]: value-initialised, every field zero. *)
Definition tx0 : Telemetry :=
  {| speed_mps := lit_0f; speed_kph := lit_0f; rpm := lit_0f;
     hall_raw := 0; millis_ts := 0 |}.

(** What one run of [loop] reads from its collaborators: [millis()],
    [analogRead(PIN_KY024_AO)] and [micros()]. *)
Record Inputs := {
  in_millis : Z;
  in_analog : Z;
  in_micros : Z
}.

(** [sinceLastPulseMs]: [(nowUs - lastPulseMicrosSnapshot) / 1000U]. *)
Definition sinceLastPulseMs (micros lastPulseMicrosSnapshot : Z) : Z :=
  let nowUs := u32 micros in
  sub32 nowUs lastPulseMicrosSnapshot / 1000.

(** Lines 144-156 of [loop]: the pair [(rpm, speed_mps)] derived from the
    snapshot, zero when the last pulse is too old or no interval is
    stored. *)
Definition kinematics (cfg : Config) (micros : Z) (snap : Tracker)
  : spec_float * spec_float :=
  let lastPulseMicrosSnapshot := g_lastPulseMicros snap in
  let lastIntervalMicrosSnapshot := g_lastIntervalMicros snap in
  if (sinceLastPulseMs micros lastPulseMicrosSnapshot
        <=? u32 (NO_PULSE_TIMEOUT_MS cfg))
     && (0 <? lastIntervalMicrosSnapshot)
  then
    let rpm := rpmFromInterval lastIntervalMicrosSnapshot (MAGNETS_PER_REV cfg) in
    let speed_mps := speedMpsFromRPM rpm (WHEEL_CIRCUMFERENCE_M cfg) in
    (rpm, speed_mps)
  else (lit_0f, lit_0f).

(** The state [loop] keeps between runs: its [static lastSendMs] and the
    global [tx]. *)
Record Sampler := {
  lastSendMs : Z;
  tx : Telemetry
}.

Definition sampler0 : Sampler := {| lastSendMs := 0; tx := tx0 |}.

(** Lines 162-166: the five assignments to [tx]. *)
Definition package (speed_mps rpm : spec_float) (hallRaw nowMs : Z)
  : Telemetry :=
  {| speed_mps := speed_mps;
     speed_kph := F32.mul speed_mps lit_3_6f;
     rpm := rpm;
     hall_raw := hallRaw;
     millis_ts := nowMs |}.

(** The bytes of [tx] as [setValue((uint8_t* )&tx, sizeof(tx))] copies
    them: the fields in declaration order, little endian, no padding. *)
Definition bytes_of (t : Telemetry) : list byte :=
  le_split 4 (F32.bits (speed_mps t)) ++
  le_split 4 (F32.bits (speed_kph t)) ++
  le_split 4 (F32.bits (rpm t)) ++
  le_split 2 (hall_raw t) ++
  le_split 4 (millis_ts t).

(** One run of [loop] with the tracker snapshot [snap] taken between
    [noInterrupts()] and [interrupts()]: the new sampler state and the
    record notified, if any. *)
Definition loop (cfg : Config) (inp : Inputs) (snap : Tracker) (s : Sampler)
  : Sampler * option Telemetry :=
  let nowMs := u32 (in_millis inp) in
  let hallRaw := u16 (in_analog inp) in
  let '(rpm, speed_mps) := kinematics cfg (in_micros inp) snap in
  if 100 <=? sub32 nowMs (lastSendMs s) then
    let tx' := package speed_mps rpm hallRaw nowMs in
    ({| lastSendMs := nowMs; tx := tx' |}, Some tx')
  else (s, None).

End Firmware.

(** ** The layout of a packed struct *)

Module Layout.

(** The member types [struct Telemetry] uses. *)
Inductive ctype := Cfloat | Cuint16 | Cuint32.

Definition sizeof (t : ctype) : Z :=
  match t with Cfloat => 4 | Cuint16 => 2 | Cuint32 => 4 end.

(** Natural alignment on the 32-bit target. *)
Definition alignof (t : ctype) : Z := sizeof t.

Definition align_up (off a : Z) : Z := (off + a - 1) / a * a.

(** Member offsets under [#pragma pack(n)]: every member is aligned to
    the smaller of [n] and its natural alignment. *)
Fixpoint offsets_from (pack off : Z) (members : list ctype) : list Z :=
  match members with
  | [] => []
  | m :: ms =>
      let o := align_up off (Z.min pack (alignof m)) in
      o :: offsets_from pack (o + sizeof m) ms
  end.

Fixpoint end_from (pack off : Z) (members : list ctype) : Z :=
  match members with
  | [] => off
  | m :: ms =>
      end_from pack (align_up off (Z.min pack (alignof m)) + sizeof m) ms
  end.

Definition struct_align (pack : Z) (members : list ctype) : Z :=
  fold_right (fun m a => Z.max (Z.min pack (alignof m)) a) 1 members.

Definition sizeof_struct (pack : Z) (members : list ctype) : Z :=
  align_up (end_from pack 0 members) (struct_align pack members).

(** The members of [struct Telemetry], in declaration order. *)
Definition Telemetry_members : list ctype :=
  [Cfloat; Cfloat; Cfloat; Cuint16; Cuint32].

(** [bytes[off .. off+len)]. *)
Definition slice (off len : Z) (bytes : list byte) : list byte :=
  firstn (Z.to_nat len) (skipn (Z.to_nat off) bytes).

End Layout.

(** ** The snapshot section of [loop] under interrupts *)

Module Snapshot.
Import Firmware.

(** Program points: the five statements of lines 138-142, and the point
    after them. *)
Inductive pc := L138 | L139 | L140 | L141 | L142 | L143.

Record Machine := {
  globals : Tracker;                   (* the volatile globals *)
  irq_enabled : bool;                  (* the core's interrupt mask *)
  at_pc : pc;
  lastPulseMicrosSnapshot : Z;
  lastIntervalMicrosSnapshot : Z;
  pulseCountSnapshot : Z
}.

(** The statement at the current program point. *)
Definition exec (m : Machine) : Machine :=
  match at_pc m with
  | L138 => (* noInterrupts(); *)
      {| globals := globals m; irq_enabled := false; at_pc := L139;
         lastPulseMicrosSnapshot := lastPulseMicrosSnapshot m;
         lastIntervalMicrosSnapshot := lastIntervalMicrosSnapshot m;
         pulseCountSnapshot := pulseCountSnapshot m |}
  | L139 => (* lastPulseMicrosSnapshot = g_lastPulseMicros; *)
      {| globals := globals m; irq_enabled := irq_enabled m; at_pc := L140;
         lastPulseMicrosSnapshot := g_lastPulseMicros (globals m);
         lastIntervalMicrosSnapshot := lastIntervalMicrosSnapshot m;
         pulseCountSnapshot := pulseCountSnapshot m |}
  | L140 => (* lastIntervalMicrosSnapshot = g_lastIntervalMicros; *)
      {| globals := globals m; irq_enabled := irq_enabled m; at_pc := L141;
         lastPulseMicrosSnapshot := lastPulseMicrosSnapshot m;
         lastIntervalMicrosSnapshot := g_lastIntervalMicros (globals m);
         pulseCountSnapshot := pulseCountSnapshot m |}
  | L141 => (* pulseCountSnapshot = g_pulseCount; *)
      {| globals := globals m; irq_enabled := irq_enabled m; at_pc := L142;
         lastPulseMicrosSnapshot := lastPulseMicrosSnapshot m;
         lastIntervalMicrosSnapshot := lastIntervalMicrosSnapshot m;
         pulseCountSnapshot := g_pulseCount (globals m) |}
  | L142 => (* interrupts(); *)
      {| globals := globals m; irq_enabled := true; at_pc := L143;
         lastPulseMicrosSnapshot := lastPulseMicrosSnapshot m;
         lastIntervalMicrosSnapshot := lastIntervalMicrosSnapshot m;
         pulseCountSnapshot := pulseCountSnapshot m |}
  | L143 => m
  end.

(** The handler runs to completion on the globals and leaves the
    interrupted code where it was. *)
Definition interrupt (cfg : Config) (micros : Z) (m : Machine) : Machine :=
  {| globals := isr_ky024 cfg micros (globals m);
     irq_enabled := irq_enabled m; at_pc := at_pc m;
     lastPulseMicrosSnapshot := lastPulseMicrosSnapshot m;
     lastIntervalMicrosSnapshot := lastIntervalMicrosSnapshot m;
     pulseCountSnapshot := pulseCountSnapshot m |}.

(** One step: the next statement of the section, or, while interrupts
    are enabled, a pin change serviced by the handler. *)
Inductive step (cfg : Config) : Machine -> Machine -> Prop :=
| step_stmt : forall m, at_pc m <> L143 -> step cfg m (exec m)
| step_irq : forall m micros,
    irq_enabled m = true -> step cfg m (interrupt cfg micros m).

Inductive steps (cfg : Config) : Machine -> Machine -> Prop :=
| steps_refl : forall m, steps cfg m m
| steps_cons : forall m1 m2 m3,
    step cfg m1 m2 -> steps cfg m2 m3 -> steps cfg m1 m3.

(** The same section if the mask were ignored: the handler may run
    between any two statements. *)
Inductive racy_step (cfg : Config) : Machine -> Machine -> Prop :=
| racy_stmt : forall m, at_pc m <> L143 -> racy_step cfg m (exec m)
| racy_irq : forall m micros, racy_step cfg m (interrupt cfg micros m).

Inductive racy_steps (cfg : Config) : Machine -> Machine -> Prop :=
| racy_refl : forall m, racy_steps cfg m m
| racy_cons : forall m1 m2 m3,
    racy_step cfg m1 m2 -> racy_steps cfg m2 m3 -> racy_steps cfg m1 m3.

(** The triple the three snapshot locals hold. *)
Definition snapshot (m : Machine) : Tracker :=
  {| g_pulseCount := pulseCountSnapshot m;
     g_lastPulseMicros := lastPulseMicrosSnapshot m;
     g_lastIntervalMicros := lastIntervalMicrosSnapshot m |}.

(** Entry into the section with the globals [t]. *)
Definition enter (t : Tracker) : Machine :=
  {| globals := t; irq_enabled := true; at_pc := L138;
     lastPulseMicrosSnapshot := 0; lastIntervalMicrosSnapshot := 0;
     pulseCountSnapshot := 0 |}.

End Snapshot.

(** ** The clock *)

Module Clock.

(** Modelled from the spec: the clock collaborator's [micros()] is not
    part of the sketch.  It is a monotonic microsecond counter that never
    resets while powered and wraps at the width of [uint32_t]; [T] is
    the time since power-up in microseconds. *)
Definition micros_at (T : Z) : Z := UInt.u32 T.

End Clock.

(** ** Predicates used to state and prove the properties *)

(** The tracker fields are within [uint32_t]. *)
Definition tracker_ok (t : Firmware.Tracker) : Prop :=
  0 <= Firmware.g_pulseCount t < 2 ^ 32 /\
  0 <= Firmware.g_lastPulseMicros t < 2 ^ 32 /\
  0 <= Firmware.g_lastIntervalMicros t < 2 ^ 32.

(** While the snapshot section runs, the locals already assigned agree with
    the globals [t0] it was entered with, and those are still in place. *)
Definition section_inv (t0 : Firmware.Tracker) (m : Snapshot.Machine) : Prop :=
  match Snapshot.at_pc m with
  | Snapshot.L138 => True
  | Snapshot.L139 =>
      Snapshot.irq_enabled m = false /\ Snapshot.globals m = t0
  | Snapshot.L140 =>
      Snapshot.irq_enabled m = false /\ Snapshot.globals m = t0 /\
      Snapshot.lastPulseMicrosSnapshot m = Firmware.g_lastPulseMicros t0
  | Snapshot.L141 =>
      Snapshot.irq_enabled m = false /\ Snapshot.globals m = t0 /\
      Snapshot.lastPulseMicrosSnapshot m = Firmware.g_lastPulseMicros t0 /\
      Snapshot.lastIntervalMicrosSnapshot m = Firmware.g_lastIntervalMicros t0
  | Snapshot.L142 =>
      Snapshot.irq_enabled m = false /\ Snapshot.globals m = t0 /\
      Snapshot.snapshot m = t0
  | Snapshot.L143 => Snapshot.snapshot m = t0
  end.

(** [located mrs num den]: the shift record [mrs] describes the rational
    [num/den]: its integer part is [shr_m], and the round and sticky bits
    say where the fraction lies with respect to one half. *)
Definition located (mrs : shr_record) (num den : Z) : Prop :=
  let t := 2 * (num - shr_m mrs * den) in
  0 <= shr_m mrs /\ 0 < den /\ 0 <= t < 2 * den /\
  (shr_r mrs = true <-> den <= t) /\
  (shr_s mrs = true <-> (t <> 0 /\ t <> den)).

(** A float in normal form: a full mantissa and an exponent in range. *)
Definition normal (prec emax : Z) (x : spec_float) : Prop :=
  match x with
  | S754_finite _ m e =>
      Zpos (digits2_pos m) = prec /\
      emin prec emax <= e <= emax - prec
  | _ => False
  end.

(** A positive float in normal form. *)
Definition pnormal (prec emax : Z) (x : spec_float) : Prop :=
  match x with
  | S754_finite false m e =>
      Zpos (digits2_pos m) = prec /\
      emin prec emax <= e <= emax - prec
  | _ => False
  end.

(** The normal float of precision [prec] whose value is the integer [N]. *)
Definition int_float (prec : Z) (N : Z) : spec_float :=
  S754_finite false (Z.to_pos (N * 2 ^ (prec - Zdigits2 N)))
              (Zdigits2 N - prec).

(** Neither NaN nor negative: [+0], a positive finite value, or [+inf]. *)
Definition fpos_class (x : spec_float) : Prop :=
  match x with
  | S754_zero false | S754_infinity false | S754_finite false _ _ => True
  | _ => False
  end.

(** The sign bit of a zero or finite float. *)
Definition fsign (x : spec_float) : bool :=
  match x with
  | S754_zero s | S754_finite s _ _ | S754_infinity s => s
  | S754_nan => false
  end.

Definition pow2 (e : Z) : Q := Qpower 2 e.

(** ** Runs of the handler and of the sampler *)

(** The handler serving a train of pin changes, [es] being the values
    [micros()] returns in each call. *)
Definition run_edges (cfg : Firmware.Config) (es : list Z)
  (t : Firmware.Tracker) : Firmware.Tracker :=
  fold_left (fun t micros => Firmware.isr_ky024 cfg micros t) es t.

(** [loop] called again and again, each call with what it reads and the
    snapshot it takes; the records notified, oldest first. *)
Fixpoint run_loops (cfg : Firmware.Config)
  (ticks : list (Firmware.Inputs * Firmware.Tracker)) (s : Firmware.Sampler)
  : Firmware.Sampler * list Firmware.Telemetry :=
  match ticks with
  | [] => (s, [])
  | (inp, snap) :: rest =>
      let '(s1, out) := Firmware.loop cfg inp snap s in
      let '(s2, outs) := run_loops cfg rest s1 in
      (s2, match out with Some t => t :: outs | None => outs end)
  end.

(** The handler as it would run on a clock that never wraps: the same
    statements on unbounded integers, [T] being the time since power-up. *)
Definition isr_unbounded (cfg : Firmware.Config) (T : Z)
  (t : Firmware.Tracker) : Firmware.Tracker :=
  let gap := T - Firmware.g_lastPulseMicros t in
  if UInt.u32 (Firmware.MIN_PULSE_GAP_US cfg) <=? gap then
    {| Firmware.g_pulseCount := Firmware.g_pulseCount t + 1;
       Firmware.g_lastPulseMicros := T;
       Firmware.g_lastIntervalMicros := gap |}
  else t.

Definition run_unbounded (cfg : Firmware.Config) (Ts : list Z)
  (t : Firmware.Tracker) : Firmware.Tracker :=
  fold_left (fun t T => isr_unbounded cfg T t) Ts t.

(** The 32-bit image of an unbounded tracker. *)
Definition wrapped (t : Firmware.Tracker) : Firmware.Tracker :=
  {| Firmware.g_pulseCount := UInt.u32 (Firmware.g_pulseCount t);
     Firmware.g_lastPulseMicros := UInt.u32 (Firmware.g_lastPulseMicros t);
     Firmware.g_lastIntervalMicros := UInt.u32 (Firmware.g_lastIntervalMicros t) |}.

(** The instants [Ts] follow [prev] in order, each less than [bound] after
    the one before. *)
Fixpoint well_spaced (bound prev : Z) (Ts : list Z) : bool :=
  match Ts with
  | [] => true
  | T :: rest => (prev <=? T) && (T - prev <? bound) && well_spaced bound T rest
  end.

(** What the stored [tx] and [lastSendMs] always satisfy between runs of
    [loop]. *)
Definition sampler_ok (s : Firmware.Sampler) : Prop :=
  Firmware.millis_ts (Firmware.tx s) = Firmware.lastSendMs s /\
  0 <= Firmware.lastSendMs s < 2 ^ 32 /\
  0 <= Firmware.hall_raw (Firmware.tx s) < 2 ^ 16 /\
  Firmware.speed_kph (Firmware.tx s)
    = F32.mul (Firmware.speed_mps (Firmware.tx s)) Firmware.lit_3_6f.

(** A float the stock firmware puts in a record: [+0] or positive normal. *)
Definition zero_or_pnormal (x : spec_float) : Prop :=
  x = S754_zero false \/ pnormal 24 128 x.

(** The timestamps of successive records, starting after [prev], are at
    least 100 apart in [uint32_t] arithmetic. *)
Fixpoint paced (prev : Z) (outs : list Firmware.Telemetry) : Prop :=
  match outs with
  | [] => True
  | t :: rest =>
      100 <= UInt.sub32 (Firmware.millis_ts t) prev /\
      paced (Firmware.millis_ts t) rest
  end.

(** A record as the stock firmware fills it: floats that are [+0] or
    positive normal, integers within their types. *)
Definition wire_ok (t : Firmware.Telemetry) : Prop :=
  zero_or_pnormal (Firmware.speed_mps t) /\
  zero_or_pnormal (Firmware.speed_kph t) /\
  zero_or_pnormal (Firmware.rpm t) /\
  0 <= Firmware.hall_raw t < 2 ^ 16 /\
  0 <= Firmware.millis_ts t < 2 ^ 32.

(** The instants of [Ts] at which an edge is accepted by a debounce of
    [floor] microseconds on a clock that never wraps, [last] being the
    instant of the last edge accepted before them (power-up, instant 0,
    standing in before the first). *)
Fixpoint accepted_from (floor last : Z) (Ts : list Z) : list Z :=
  match Ts with
  | [] => []
  | T :: rest =>
      if floor <=? T - last then T :: accepted_from floor T rest
      else accepted_from floor last rest
  end.

(** The tracker that has accepted the edges at the instants [acc] since
    power-up: their number, the counter reading at the last one, and the
    time from the one before it (from power-up when there is one only). *)
Definition tracker_after (acc : list Z) : Firmware.Tracker :=
  {| Firmware.g_pulseCount := UInt.u32 (Z.of_nat (length acc));
     Firmware.g_lastPulseMicros := UInt.u32 (last acc 0);
     Firmware.g_lastIntervalMicros :=
       match acc with
       | [] => 0
       | _ :: _ => last acc 0 - last (removelast acc) 0
       end |}.

(** * Properties *)

Import UInt Firmware Layout Snapshot Clock.

(** ** Fixed-width arithmetic *)

Lemma u32_range x : 0 <= u32 x < 2 ^ 32.
Proof. unfold u32. apply Z.mod_pos_bound. lia. Qed.

Lemma u32_small x : 0 <= x < 2 ^ 32 -> u32 x = x.
Proof. unfold u32. apply Z.mod_small. Qed.

Lemma u32_idem x : u32 (u32 x) = u32 x.
Proof. apply u32_small, u32_range. Qed.

Lemma startup_ok : tracker_ok startup.
Proof. unfold tracker_ok. cbn. lia. Qed.

(** The handler keeps the tracker fields within [uint32_t]. *)
Lemma isr_ky024_ok cfg micros t :
  tracker_ok t -> tracker_ok (isr_ky024 cfg micros t).
Proof.
  unfold isr_ky024, tracker_ok. intros H.
  destruct (_ <=? _); simpl; auto.
  unfold add32, sub32. repeat split; apply u32_range.
Qed.

Lemma isr_ky024_accept cfg micros t :
  u32 (MIN_PULSE_GAP_US cfg) <= sub32 (u32 micros) (g_lastPulseMicros t) ->
  isr_ky024 cfg micros t =
    {| g_pulseCount := add32 (g_pulseCount t) 1;
       g_lastPulseMicros := u32 micros;
       g_lastIntervalMicros := sub32 (u32 micros) (g_lastPulseMicros t) |}.
Proof.
  intros H. unfold isr_ky024. apply Z.leb_le in H. rewrite H. reflexivity.
Qed.

Lemma isr_ky024_reject cfg micros t :
  sub32 (u32 micros) (g_lastPulseMicros t) < u32 (MIN_PULSE_GAP_US cfg) ->
  isr_ky024 cfg micros t = t.
Proof.
  intros H. unfold isr_ky024. apply Z.leb_gt in H. rewrite H. reflexivity.
Qed.

(** ** The edge handler *)

(** C1, as the claim words it, fails: the first accepted edge after startup
    stores its gap.  An edge at 5000 microseconds takes the count from 0 to
    1 and leaves [g_lastIntervalMicros] at 5000, not at zero. *)
Lemma C1_first_gap_is_stored :
  let t := isr_ky024 stock 5000 startup in
  g_pulseCount startup = 0 /\ g_pulseCount t = 1 /\
  g_lastPulseMicros t = 5000 /\
  g_lastIntervalMicros t = 5000 /\ g_lastIntervalMicros t <> 0.
Proof. vm_compute. repeat split; congruence. Qed.

(** C1, amended: the first accepted edge after startup takes the count from
    0 to 1, sets [g_lastPulseMicros] to the current time and stores the gap
    measured against the zero startup value, which is the current time
    itself, in [g_lastIntervalMicros]. *)
Theorem C1_first_accepted_edge cfg micros :
  u32 (MIN_PULSE_GAP_US cfg) <= u32 micros ->
  isr_ky024 cfg micros startup =
    {| g_pulseCount := 1;
       g_lastPulseMicros := u32 micros;
       g_lastIntervalMicros := u32 micros |}.
Proof.
  intros H. rewrite isr_ky024_accept.
  - simpl. unfold sub32. rewrite Z.sub_0_r, u32_idem. reflexivity.
  - simpl. unfold sub32. rewrite Z.sub_0_r, u32_idem. exact H.
Qed.

Lemma C1_first_accepted_edge_witness :
  isr_ky024 stock 123456 startup =
    {| g_pulseCount := 1; g_lastPulseMicros := 123456;
       g_lastIntervalMicros := 123456 |}.
Proof. apply (C1_first_accepted_edge stock 123456). vm_compute. congruence. Defined.

(** ** The sampler *)

Lemma kinematics_stale cfg micros snap :
  u32 (NO_PULSE_TIMEOUT_MS cfg) < sinceLastPulseMs micros (g_lastPulseMicros snap) ->
  kinematics cfg micros snap = (lit_0f, lit_0f).
Proof.
  intros H. unfold kinematics. apply Z.leb_gt in H. rewrite H. reflexivity.
Qed.

(** The same in microseconds: from [timeout + 1] whole milliseconds on. *)
Lemma kinematics_stale_micros cfg micros snap :
  (u32 (NO_PULSE_TIMEOUT_MS cfg) + 1) * 1000
    <= sub32 (u32 micros) (g_lastPulseMicros snap) ->
  kinematics cfg micros snap = (lit_0f, lit_0f).
Proof.
  intros H. apply kinematics_stale. unfold sinceLastPulseMs.
  assert (u32 (NO_PULSE_TIMEOUT_MS cfg) + 1
          <= sub32 (u32 micros) (g_lastPulseMicros snap) / 1000)
    by (apply Z.div_le_lower_bound; lia).
  lia.
Qed.

Lemma kinematics_no_interval cfg micros snap :
  g_lastIntervalMicros snap <= 0 ->
  kinematics cfg micros snap = (lit_0f, lit_0f).
Proof.
  intros H. unfold kinematics. apply Z.ltb_ge in H. rewrite H.
  rewrite andb_false_r. reflexivity.
Qed.

Lemma loop_sample cfg inp snap s s' t :
  loop cfg inp snap s = (s', Some t) ->
  t = package (snd (kinematics cfg (in_micros inp) snap))
              (fst (kinematics cfg (in_micros inp) snap))
              (u16 (in_analog inp)) (u32 (in_millis inp)) /\
  tx s' = t /\ lastSendMs s' = u32 (in_millis inp).
Proof.
  unfold loop. destruct (kinematics _ _ _) as [r v].
  destruct (_ <=? _); intros H; inversion H; subst; simpl. auto.
Qed.

(** C5: a raw edge whose gap to the last accepted edge is below the
    debounce floor changes nothing: the tracker is returned as it was.
    Consequently, of two raw edges closer together than the floor the second
    is dropped when the first was accepted, so the count goes up once; and
    whatever happens to the first, the count never goes up twice. *)
Theorem C5_debounce_rejects_bounce cfg :
  (forall micros t,
      sub32 (u32 micros) (g_lastPulseMicros t) < u32 (MIN_PULSE_GAP_US cfg) ->
      isr_ky024 cfg micros t = t) /\
  (forall t m1 m2,
      sub32 (u32 m2) (u32 m1) < u32 (MIN_PULSE_GAP_US cfg) ->
      let t1 := isr_ky024 cfg m1 t in
      let t2 := isr_ky024 cfg m2 t1 in
      (u32 (MIN_PULSE_GAP_US cfg) <= sub32 (u32 m1) (g_lastPulseMicros t) ->
       t2 = t1 /\ g_pulseCount t2 = add32 (g_pulseCount t) 1) /\
      (g_pulseCount t2 = g_pulseCount t \/
       g_pulseCount t2 = add32 (g_pulseCount t) 1)).
Proof.
  split.
  - intros micros t H. apply isr_ky024_reject, H.
  - intros t m1 m2 Hclose t1 t2.
    assert (A : u32 (MIN_PULSE_GAP_US cfg) <= sub32 (u32 m1) (g_lastPulseMicros t) ->
                t2 = t1 /\ g_pulseCount t2 = add32 (g_pulseCount t) 1).
    { intros Hacc. subst t2 t1. rewrite (isr_ky024_accept cfg m1 t Hacc).
      rewrite isr_ky024_reject by exact Hclose. split; reflexivity. }
    split; [exact A|].
    destruct (Z_le_gt_dec (u32 (MIN_PULSE_GAP_US cfg))
                          (sub32 (u32 m1) (g_lastPulseMicros t))) as [Hacc | Hrej].
    + right. apply A, Hacc.
    + assert (E : t1 = t) by (apply isr_ky024_reject; lia).
      subst t2. rewrite E. unfold isr_ky024.
      destruct (_ <=? _); simpl; auto.
Qed.

Lemma C5_witness :
  isr_ky024 stock 10500
    {| g_pulseCount := 3; g_lastPulseMicros := 10000;
       g_lastIntervalMicros := 4000 |} =
    {| g_pulseCount := 3; g_lastPulseMicros := 10000;
       g_lastIntervalMicros := 4000 |} /\
  g_pulseCount (isr_ky024 stock 20700 (isr_ky024 stock 20000 startup)) = 1.
Proof.
  destruct (C5_debounce_rejects_bounce stock) as [F P]. split.
  - apply F. vm_compute. reflexivity.
  - assert (C : sub32 (u32 20700) (u32 20000) < u32 (MIN_PULSE_GAP_US stock))
      by (vm_compute; reflexivity).
    destruct (P startup 20000 20700 C) as [A _].
    apply A. vm_compute. congruence.
Defined.

(** ** Timer wrap-around *)

Lemma wrap_safe_sub T1 T2 :
  T1 <= T2 -> T2 - T1 < 2 ^ 32 -> sub32 (u32 T2) (u32 T1) = T2 - T1.
Proof.
  intros H1 H2. unfold sub32, u32. rewrite <- Zminus_mod.
  apply Z.mod_small. lia.
Qed.

(** C6: both durations taken from the 32-bit microsecond counter, the gap
    in the edge handler and the time since the last pulse in the sampler,
    are subtractions modulo 2^32: for two instants [T1 <= T2] less than 2^32
    microseconds apart they give the true difference [T2 - T1], also when
    the counter wrapped between the two readings. *)
Theorem C6_durations_are_wrap_safe cfg T1 T2 t :
  0 <= T1 <= T2 -> T2 - T1 < 2 ^ 32 ->
  g_lastPulseMicros t = micros_at T1 ->
  isr_ky024 cfg (micros_at T2) t =
    (if u32 (MIN_PULSE_GAP_US cfg) <=? T2 - T1 then
       {| g_pulseCount := add32 (g_pulseCount t) 1;
          g_lastPulseMicros := micros_at T2;
          g_lastIntervalMicros := T2 - T1 |}
     else t) /\
  sinceLastPulseMs (micros_at T2) (g_lastPulseMicros t) = (T2 - T1) / 1000.
Proof.
  intros H1 H2 E. unfold isr_ky024, sinceLastPulseMs, micros_at in *.
  rewrite E, !u32_idem, wrap_safe_sub by lia. split; reflexivity.
Qed.

Lemma C6_witness :
  isr_ky024 stock (micros_at 4294970296)
    {| g_pulseCount := 41; g_lastPulseMicros := 4294965296;
       g_lastIntervalMicros := 5000 |} =
    {| g_pulseCount := 42; g_lastPulseMicros := 3000;
       g_lastIntervalMicros := 5000 |} /\
  sinceLastPulseMs (micros_at 4294970296) 4294965296 = 5.
Proof.
  apply (C6_durations_are_wrap_safe stock 4294965296 4294970296
           {| g_pulseCount := 41; g_lastPulseMicros := 4294965296;
              g_lastIntervalMicros := 5000 |}).
  - lia.
  - lia.
  - reflexivity.
Defined.

(** The bound of 2^32 microseconds cannot be dropped: a full period of the
    counter later the readings are the same, and a pulse 2^32 + 100,000
    microseconds old is taken for one 100 milliseconds old. *)
Lemma durations_alias_after_a_full_period :
  sinceLastPulseMs (micros_at (500000 + 2 ^ 32 + 100000)) (micros_at 500000)
    = 100 /\
  kinematics stock (micros_at (500000 + 2 ^ 32 + 100000))
    {| g_pulseCount := 1; g_lastPulseMicros := micros_at 500000;
       g_lastIntervalMicros := 500000 |}
    = (F32.of_Z 120, F32.of_decimal 42 100).
Proof. split; vm_compute; reflexivity. Qed.

(** ** The record on the wire *)

(** C8: the record handed to the notification has the members speed_mps,
    speed_kph, rpm (floats), hall_raw (uint16) and millis_ts (uint32) in this
    order at offsets 0, 4, 8, 12 and 14; under [#pragma pack(1)] it is 18
    bytes, the sum of the member sizes, with no padding, and the bytes sent
    are exactly the members' encodings at those offsets. *)
Theorem C8_telemetry_record_is_18_packed_bytes (t : Telemetry) :
  offsets_from 1 0 Telemetry_members = [0; 4; 8; 12; 14] /\
  sizeof_struct 1 Telemetry_members = 18 /\
  sizeof_struct 1 Telemetry_members
    = fold_right Z.add 0 (map sizeof Telemetry_members) /\
  Z.of_nat (length (bytes_of t)) = sizeof_struct 1 Telemetry_members /\
  slice 0 4 (bytes_of t) = le_split 4 (F32.bits (speed_mps t)) /\
  slice 4 4 (bytes_of t) = le_split 4 (F32.bits (speed_kph t)) /\
  slice 8 4 (bytes_of t) = le_split 4 (F32.bits (rpm t)) /\
  slice 12 2 (bytes_of t) = le_split 2 (hall_raw t) /\
  slice 14 4 (bytes_of t) = le_split 4 (millis_ts t).
Proof.
  split; [reflexivity|]. split; [reflexivity|]. split; [reflexivity|].
  unfold bytes_of, slice.
  split.
  { rewrite !length_app, !length_le_split. reflexivity. }
  repeat split.
Qed.

(** Without the pragma the compiler would pad: two bytes after [hall_raw]. *)
Lemma unpacked_telemetry_would_be_20_bytes :
  offsets_from 4 0 Telemetry_members = [0; 4; 8; 12; 16] /\
  sizeof_struct 4 Telemetry_members = 20.
Proof. split; reflexivity. Qed.

(** ** The snapshot under interrupts *)

Lemma steps_one cfg m1 m2 : step cfg m1 m2 -> steps cfg m1 m2.
Proof. intros. eapply steps_cons; [eassumption | apply steps_refl]. Qed.

Lemma step_masked_inv cfg t0 m m' :
  at_pc m <> L138 -> section_inv t0 m -> step cfg m m' ->
  at_pc m' <> L138 /\ section_inv t0 m'.
Proof.
  intros Hpc Hinv Hstep. destruct Hstep as [m Hnot | m micros Hirq].
  - unfold section_inv, exec, snapshot in *.
    destruct m as [g i p a b c]; simpl in *.
    destruct p; simpl in *; try congruence;
      (split; [congruence|]); intuition (subst; auto).
    destruct t0; reflexivity.
  - unfold section_inv, interrupt in *. destruct m as [g i p a b c]; simpl in *.
    destruct p; simpl in *; try congruence;
      (split; [congruence|]); try (destruct Hinv as (? & _); congruence).
    exact Hinv.
Qed.

Lemma steps_masked_inv cfg t0 m m' :
  steps cfg m m' -> at_pc m <> L138 -> section_inv t0 m ->
  section_inv t0 m'.
Proof.
  induction 1 as [m | m1 m2 m3 S1 S2 IH]; intros Hpc Hinv; auto.
  destruct (step_masked_inv cfg t0 m1 m2 Hpc Hinv S1) as [Hpc' Hinv'].
  auto.
Qed.

(** C9: however pin-change interrupts interleave with the snapshot section,
    the triple read is the tracker state of one instant of the run: the
    state the globals held when [noInterrupts()] took effect. *)
Theorem C9_snapshot_is_a_state_that_existed cfg m0 m :
  at_pc m0 = L138 -> steps cfg m0 m -> at_pc m = L143 ->
  exists mi, steps cfg m0 mi /\ steps cfg mi m /\ at_pc mi = L139 /\
             irq_enabled mi = false /\ snapshot m = globals mi.
Proof.
  intros H0 Hrun. revert H0.
  induction Hrun as [m | m1 m2 m3 S1 S2 IH]; intros H0 Hend.
  - congruence.
  - destruct S1 as [m1 Hnot | m1 micros Hirq].
    + exists (exec m1). split; [apply steps_one, step_stmt, Hnot|].
      split; [exact S2|].
      unfold exec. rewrite H0. simpl. repeat split.
      assert (I : section_inv (globals m1) m3).
      { eapply steps_masked_inv; [exact S2 | |].
        - unfold exec. rewrite H0. simpl. congruence.
        - unfold section_inv, exec. rewrite H0. simpl. auto. }
      unfold section_inv in I. rewrite Hend in I. exact I.
    + destruct (IH H0 Hend) as (mi & A & B & C & D & E).
      exists mi. split; [|auto].
      eapply steps_cons; [apply step_irq; exact Hirq | exact A].
Qed.

Lemma C9_witness :
  exists mi,
    steps stock (enter startup) mi /\
    steps stock mi (exec (exec (exec (exec (exec
             (interrupt stock 5000 (enter startup))))))) /\
    at_pc mi = L139 /\ irq_enabled mi = false /\
    snapshot (exec (exec (exec (exec (exec
             (interrupt stock 5000 (enter startup))))))) = globals mi.
Proof.
  apply (C9_snapshot_is_a_state_that_existed stock (enter startup)).
  - reflexivity.
  - eapply steps_cons; [apply (step_irq stock _ 5000); reflexivity|].
    do 5 (eapply steps_cons; [apply step_stmt; simpl; congruence|]).
    apply steps_refl.
  - reflexivity.
Defined.

(** Were the handler able to run inside the section, a torn triple could be
    read: here [lastPulseMicrosSnapshot] is from before an accepted edge and
    the other two from after it, a combination the globals never held. *)
Lemma unmasked_snapshot_can_tear :
  let m := exec (exec (exec (interrupt stock 5000
             (exec (exec (enter startup)))))) in
  racy_steps stock (enter startup) m /\ at_pc m = L143 /\
  snapshot m = {| g_pulseCount := 1; g_lastPulseMicros := 0;
                  g_lastIntervalMicros := 5000 |} /\
  snapshot m <> startup /\
  snapshot m <> isr_ky024 stock 5000 startup.
Proof.
  split.
  { do 2 (eapply racy_cons; [apply racy_stmt; simpl; congruence|]).
    eapply racy_cons; [apply (racy_irq stock _ 5000)|].
    do 3 (eapply racy_cons; [apply racy_stmt; simpl; congruence|]).
    apply racy_refl. }
  vm_compute. repeat split; congruence.
Qed.

(** ** Rounding: what [binary_round_aux] computes *)

Lemma digits2_pos_size p : digits2_pos p = Pos.size p.
Proof. induction p; simpl; congruence. Qed.

Lemma digits2_pos_bounds p :
  2 ^ (Zpos (digits2_pos p) - 1) <= Zpos p < 2 ^ Zpos (digits2_pos p).
Proof.
  rewrite digits2_pos_size. split.
  - pose proof (Pos.size_le p) as H.
    assert (E : 2 ^ Zpos (Pos.size p) = 2 * 2 ^ (Zpos (Pos.size p) - 1)).
    { rewrite <- Z.pow_succ_r by lia. f_equal. lia. }
    assert (H' : Zpos (2 ^ Pos.size p) <= Zpos p~0) by exact H.
    rewrite Pos2Z.inj_pow in H'. lia.
  - pose proof (Pos.size_gt p) as H.
    assert (H' : Zpos p < Zpos (2 ^ Pos.size p)) by exact H.
    rewrite Pos2Z.inj_pow in H'. exact H'.
Qed.

Lemma pow2_lt_mono_inv a b : 0 <= b -> 2 ^ a < 2 ^ b -> a < b.
Proof.
  intros Hb H. destruct (Z_lt_ge_dec a b) as [L | G]; [exact L|].
  exfalso. assert (2 ^ b <= 2 ^ a) by (apply Z.pow_le_mono_r; lia). lia.
Qed.

(** The number of binary digits is determined by the enclosing powers of
    two. *)
Lemma digits2_pos_unique p d :
  2 ^ (d - 1) <= Zpos p < 2 ^ d -> Zpos (digits2_pos p) = d.
Proof.
  intros [L U]. pose proof (digits2_pos_bounds p) as [L' U'].
  assert (0 < d).
  { destruct (Z_lt_ge_dec 0 d); auto. exfalso.
    destruct (Z.eq_dec d 0) as [-> | N]; [simpl in U; lia|].
    rewrite (Z.pow_neg_r 2 d) in U by lia. lia. }
  assert (d - 1 < Zpos (digits2_pos p)) by (apply pow2_lt_mono_inv; lia).
  assert (Zpos (digits2_pos p) - 1 < d) by (apply pow2_lt_mono_inv; lia).
  lia.
Qed.

Lemma iter_pos_nat {A} (f : A -> A) p x :
  iter_pos f p x = Nat.iter (Pos.to_nat p) f x.
Proof.
  revert x. induction p as [p IH | p IH |]; intros x; cbn [iter_pos].
  - rewrite !IH, Pos2Nat.inj_xI.
    replace (S (2 * Pos.to_nat p)) with (Pos.to_nat p + (Pos.to_nat p + 1))%nat by lia.
    rewrite !Nat.iter_add. reflexivity.
  - rewrite !IH, Pos2Nat.inj_xO.
    replace (2 * Pos.to_nat p)%nat with (Pos.to_nat p + Pos.to_nat p)%nat by lia.
    rewrite Nat.iter_add. reflexivity.
  - reflexivity.
Qed.

Lemma shr_1_nonneg mrs :
  0 <= shr_m mrs ->
  shr_1 mrs = {| shr_m := shr_m mrs / 2;
                 shr_r := Z.odd (shr_m mrs);
                 shr_s := shr_r mrs || shr_s mrs |}.
Proof.
  destruct mrs as [m r s]. simpl. intros H.
  destruct m as [| p | p]; [reflexivity | | lia].
  destruct p as [p | p |]; simpl.
  - f_equal. rewrite Pos2Z.inj_xI.
    apply Z.div_unique with (r := 1); lia.
  - f_equal. rewrite Pos2Z.inj_xO.
    apply Z.div_unique with (r := 0); lia.
  - reflexivity.
Qed.

Lemma located_shr_1 mrs num den :
  located mrs num den -> located (shr_1 mrs) num (2 * den).
Proof.
  unfold located. intros (Hm & Hd & Ht & Hr & Hs).
  rewrite shr_1_nonneg by exact Hm. cbn [shr_m shr_r shr_s].
  pose proof (Z.div_mod (shr_m mrs) 2 ltac:(lia)) as E.
  pose proof (Zmod_odd (shr_m mrs)) as O.
  set (q := shr_m mrs / 2) in *. set (m := shr_m mrs) in *.
  split; [subst q; apply Z.div_pos; lia|].
  split; [lia|].
  assert (T : 2 * (num - q * (2 * den))
              = 2 * (num - m * den) + 2 * (m mod 2) * den) by nia.
  rewrite T. clear T.
  set (t := 2 * (num - m * den)) in *.
  rewrite orb_true_iff, Hr, Hs.
  destruct (Z.odd m); rewrite O.
  - split; [lia|]. split; [split; [lia | reflexivity] | lia].
  - split; [lia|]. split; [split; [discriminate | lia] | lia].
Qed.

Lemma located_iter n mrs num den :
  located mrs num den ->
  located (Nat.iter n shr_1 mrs) num (2 ^ Z.of_nat n * den).
Proof.
  intros H. induction n as [| n IH].
  - change (Z.of_nat 0) with 0. rewrite Z.pow_0_r, Z.mul_1_l. exact H.
  - rewrite Nat2Z.inj_succ, Z.pow_succ_r by lia. cbn [Nat.iter nat_rect].
    rewrite <- Z.mul_assoc. apply located_shr_1, IH.
Qed.

(** The integer part of whatever a record locates is the floor. *)
Lemma located_floor mrs num den :
  located mrs num den -> shr_m mrs = num / den.
Proof.
  unfold located. intros (Hm & Hd & Ht & _).
  apply Z.div_unique with (r := num - shr_m mrs * den); lia.
Qed.

Lemma located_of_loc_exact m :
  0 <= m -> located (shr_record_of_loc m loc_Exact) m 1.
Proof.
  intros H. unfold located. cbn [shr_record_of_loc shr_m shr_r shr_s].
  replace (2 * (m - m * 1)) with 0 by lia.
  repeat split; try lia; try discriminate.
Qed.

Lemma shr_m_of_loc m l : shr_m (shr_record_of_loc m l) = m.
Proof. destruct l as [| []]; reflexivity. Qed.

(** Round to nearest, ties to even: the chosen integer is within one half
    of the located rational. *)
Lemma round_nearest_even_located mrs num den :
  located mrs num den ->
  let m1 := round_nearest_even (shr_m mrs) (loc_of_shr_record mrs) in
  shr_m mrs <= m1 <= shr_m mrs + 1 /\
  2 * Z.abs (m1 * den - num) <= den.
Proof.
  unfold located. intros (Hm & Hd & Ht & Hr & Hs).
  destruct mrs as [m r s].
  cbn [shr_m shr_r shr_s round_nearest_even loc_of_shr_record] in *.
  destruct r, s; cbn [round_nearest_even].
  - assert (den <= 2 * (num - m * den)) by (apply Hr; reflexivity).
    split; [lia|]. nia.
  - assert (den <= 2 * (num - m * den)) by (apply Hr; reflexivity).
    assert (~ (2 * (num - m * den) <> 0 /\ 2 * (num - m * den) <> den))
      by (intros C; apply Hs in C; discriminate).
    destruct (Z.even m); split; try lia; nia.
  - assert (~ den <= 2 * (num - m * den))
      by (intros C; apply Hr in C; discriminate).
    split; [lia|]. nia.
  - assert (~ den <= 2 * (num - m * den))
      by (intros C; apply Hr in C; discriminate).
    assert (~ (2 * (num - m * den) <> 0 /\ 2 * (num - m * den) <> den))
      by (intros C; apply Hs in C; discriminate).
    split; [lia|]. nia.
Qed.

Lemma shr_nat mrs e n :
  0 <= n -> shr mrs e n = (Nat.iter (Z.to_nat n) shr_1 mrs, e + n).
Proof.
  intros H. destruct n as [| p | p]; [| | lia].
  - cbn [shr Z.to_nat Nat.iter nat_rect]. rewrite Z.add_0_r. reflexivity.
  - cbn [shr Z.to_nat]. rewrite iter_pos_nat. reflexivity.
Qed.

Lemma Zdigits2_unique m d :
  2 ^ (d - 1) <= m < 2 ^ d -> 0 < m -> Zdigits2 m = d.
Proof.
  intros B H. destruct m as [| p | p]; try lia.
  cbn [Zdigits2]. apply digits2_pos_unique, B.
Qed.

Section Round.
Variables prec emax : Z.
Hypothesis prec_pos : 0 < prec.

(** Rounding a located rational, away from underflow and overflow: the
    result is a normal float whose mantissa is within half a unit of the
    rational, on the scale of the result. *)
Lemma binary_round_aux_normal s p e l num den :
  located (shr_record_of_loc (Zpos p) l) num den ->
  let d := Zpos (digits2_pos p) in
  let n := d - prec in
  prec <= d -> emin prec emax <= d + e - prec -> d + e < emax ->
  exists m' e' m1,
    binary_round_aux prec emax s (Zpos p) e l = S754_finite s m' e' /\
    normal prec emax (S754_finite s m' e') /\
    e + n <= e' <= e + n + 1 /\
    Zpos m' * 2 ^ (e' - (e + n)) = m1 /\
    2 * Z.abs (m1 * (2 ^ n * den) - num) <= 2 ^ n * den.
Proof.
  intros Hloc d n Hd Hmin Hmax.
  assert (Hn : 0 <= n) by (subst n; lia).
  unfold binary_round_aux, shr_fexp. cbn [Zdigits2]. fold d.
  assert (F1 : fexp prec emax (d + e) - e = n)
    by (unfold fexp; subst n; lia).
  rewrite F1, shr_nat by exact Hn.
  pose proof (located_iter (Z.to_nat n) _ _ _ Hloc) as Hloc'.
  rewrite Z2Nat.id in Hloc' by exact Hn.
  set (mrs' := Nat.iter (Z.to_nat n) shr_1 (shr_record_of_loc (Zpos p) l)) in *.
  pose proof (round_nearest_even_located _ _ _ Hloc') as [Hm1 Herr].
  set (m1 := round_nearest_even (shr_m mrs') (loc_of_shr_record mrs')) in *.
  (* the truncated mantissa has exactly [prec] digits *)
  assert (Hq : 2 ^ (prec - 1) <= shr_m mrs' < 2 ^ prec).
  { rewrite (located_floor _ _ _ Hloc').
    pose proof (located_floor _ _ _ Hloc) as Fl.
    rewrite shr_m_of_loc in Fl.
    destruct Hloc as (_ & Hden & _).
    rewrite Z.mul_comm, <- Z.div_div by (try apply Z.pow_pos_nonneg; lia).
    rewrite <- Fl.
    pose proof (digits2_pos_bounds p) as [L U]. fold d in L, U.
    assert (Ed : d = prec + n) by (subst n; lia).
    assert (P : 0 < 2 ^ n) by (apply Z.pow_pos_nonneg; lia).
    split.
    - apply Z.div_le_lower_bound; [exact P|].
      rewrite <- Z.pow_add_r by lia.
      replace (n + (prec - 1)) with (d - 1) by lia. exact L.
    - apply Z.div_lt_upper_bound; [exact P|].
      rewrite <- Z.pow_add_r by lia.
      replace (n + prec) with d by lia. exact U. }
  assert (Ppos : 0 < 2 ^ (prec - 1)) by (apply Z.pow_pos_nonneg; lia).
  assert (P2 : 2 ^ prec = 2 * 2 ^ (prec - 1)).
  { rewrite <- Z.pow_succ_r by lia. f_equal. lia. }
  destruct (Z_lt_ge_dec m1 (2 ^ prec)) as [Hlt | Hge].
  - (* no carry out of the rounding *)
    assert (D1 : Zdigits2 m1 = prec) by (apply Zdigits2_unique; lia).
    rewrite D1.
    assert (F2 : fexp prec emax (prec + (e + n)) - (e + n) = 0)
      by (unfold fexp; subst n; lia).
    rewrite F2. cbn [shr shr_record_of_loc shr_m].
    destruct m1 as [| p1 | p1] eqn:E1; try lia.
    assert (Le : (e + n <=? emax - prec) = true)
      by (apply Z.leb_le; subst n; lia).
    rewrite Le. exists p1, (e + n), (Zpos p1).
    split; [reflexivity|]. split.
    { cbn [normal]. split; [exact D1 | subst n; lia]. }
    split; [lia|]. split.
    { rewrite Z.sub_diag, Z.pow_0_r. lia. }
    exact Herr.
  - (* the mantissa rounded up to [2 ^ prec]: one more shift *)
    assert (E1 : m1 = 2 ^ prec) by lia.
    assert (D1 : Zdigits2 m1 = prec + 1).
    { apply Zdigits2_unique; [|lia].
      replace (prec + 1 - 1) with prec by lia.
      rewrite Z.pow_add_r, Z.pow_1_r by lia. lia. }
    rewrite D1.
    assert (F2 : fexp prec emax (prec + 1 + (e + n)) - (e + n) = 1)
      by (unfold fexp; subst n; lia).
    rewrite F2. cbn [shr shr_record_of_loc iter_pos].
    rewrite shr_1_nonneg by (cbn [shr_m]; lia). cbn [shr_m].
    assert (Q : m1 / 2 = 2 ^ (prec - 1)).
    { rewrite E1, P2, Z.mul_comm. apply Z.div_mul. lia. }
    rewrite Q.
    destruct (2 ^ (prec - 1)) as [| p1 | p1] eqn:E2; try lia.
    assert (Le : (e + n + 1 <=? emax - prec) = true)
      by (apply Z.leb_le; subst n; lia).
    rewrite Le. exists p1, (e + n + 1), m1.
    split; [reflexivity|]. split.
    { cbn [normal]. split; [|subst n; lia].
      apply digits2_pos_unique. rewrite <- E2. lia. }
    split; [lia|]. split.
    { replace (e + n + 1 - (e + n)) with 1 by lia. rewrite Z.pow_1_r. lia. }
    exact Herr.
Qed.
(** When the bits shifted out are all zero, rounding only renormalises. *)
Lemma binary_round_aux_exact s p e :
  let d := Zpos (digits2_pos p) in
  let n := d - prec in
  prec <= d -> emin prec emax <= d + e - prec -> d + e < emax ->
  Zpos p mod 2 ^ n = 0 ->
  binary_round_aux prec emax s (Zpos p) e loc_Exact
    = S754_finite s (Z.to_pos (Zpos p / 2 ^ n)) (e + n).
Proof.
  intros d n Hd Hmin Hmax Hdiv.
  destruct (binary_round_aux_normal s p e loc_Exact (Zpos p) 1
              (located_of_loc_exact (Zpos p) (Pos2Z.is_nonneg p)) Hd Hmin Hmax)
    as (m' & e' & m1 & -> & [Dg _] & He & Hm1 & Herr).
  fold d in He, Hm1, Herr. fold n in He, Hm1, Herr.
  assert (Hn : 0 <= n) by (subst n; lia).
  assert (P : 0 < 2 ^ n) by (apply Z.pow_pos_nonneg; lia).
  pose proof (Z.div_mod (Zpos p) (2 ^ n) ltac:(lia)) as E.
  rewrite Hdiv, Z.add_0_r in E.
  set (c := Zpos p / 2 ^ n) in *.
  assert (M : m1 = c) by nia.
  pose proof (digits2_pos_bounds p) as [_ U]. fold d in U.
  replace d with (n + prec) in U by (subst n; lia).
  rewrite Z.pow_add_r in U by lia.
  assert (C : 0 < c < 2 ^ prec) by nia.
  pose proof (digits2_pos_bounds m') as [L' _]. rewrite Dg in L'.
  assert (P2 : 2 ^ prec = 2 * 2 ^ (prec - 1)).
  { rewrite <- Z.pow_succ_r by lia. f_equal. lia. }
  assert (Ee : e' = e + n).
  { destruct (Z.eq_dec e' (e + n)) as [Q | Q]; [exact Q|]. exfalso.
    replace (e' - (e + n)) with 1 in Hm1 by lia.
    rewrite Z.pow_1_r in Hm1. lia. }
  subst e'. rewrite Z.sub_diag, Z.pow_0_r in Hm1.
  f_equal. rewrite <- M, <- Hm1, Z.mul_1_r. reflexivity.
Qed.
End Round.

(** ** Values as rationals *)

Local Open Scope Q_scope.

Lemma pow2_pos e : 0 < pow2 e.
Proof. apply Qpower_0_lt. reflexivity. Qed.

Lemma pow2_add a b : pow2 (a + b) == pow2 a * pow2 b.
Proof. apply Qpower_plus. discriminate. Qed.

Lemma pow2_inject n : (0 <= n)%Z -> inject_Z (2 ^ n) == pow2 n.
Proof. intros H. apply Zpower_Qpower, H. Qed.

Lemma pow2_le a b : (a <= b)%Z -> pow2 a <= pow2 b.
Proof. intros H. apply Qpower_le_compat_l; [exact H | discriminate]. Qed.

Lemma Qabs_inject_Z z : Qabs (inject_Z z) == inject_Z (Z.abs z).
Proof. reflexivity. Qed.

Lemma SF2Q_finite m e :
  SF2Q (S754_finite false m e) == inject_Z (Zpos m) * pow2 e.
Proof. unfold SF2Q, pow2. ring. Qed.

Lemma pow2_lt_inv a b : pow2 a < pow2 b -> (a < b)%Z.
Proof. intros H. eapply Qpower_lt_compat_l_inv; [exact H | reflexivity]. Qed.

Section RoundQ.
Variables prec emax : Z.
Hypothesis prec_pos : (0 < prec)%Z.

(** The value of a normal float fixes its exponent. *)
Lemma pnormal_value_bounds m e :
  Zpos (digits2_pos m) = prec ->
  pow2 (prec - 1 + e) <= SF2Q (S754_finite false m e) < pow2 (prec + e).
Proof.
  intros D. pose proof (digits2_pos_bounds m) as [L U]. rewrite D in L, U.
  rewrite SF2Q_finite, !pow2_add.
  rewrite <- (pow2_inject (prec - 1)), <- (pow2_inject prec) by lia.
  pose proof (pow2_pos e) as P.
  split.
  - apply Qmult_le_compat_r; [|lra]. rewrite <- Zle_Qle. exact L.
  - apply Qmult_lt_compat_r; [lra|]. rewrite <- Zlt_Qlt. exact U.
Qed.

(** Rounding in the normal range is within relative error [2 ^ -prec]. *)
Lemma binary_round_aux_rel p e l num den X :
  located (shr_record_of_loc (Zpos p) l) num den ->
  X == inject_Z num / inject_Z den * pow2 e ->
  let d := Zpos (digits2_pos p) in
  (prec <= d)%Z -> (emin prec emax <= d + e - prec)%Z -> (d + e < emax)%Z ->
  pnormal prec emax (binary_round_aux prec emax false (Zpos p) e l) /\
  Qabs (SF2Q (binary_round_aux prec emax false (Zpos p) e l) - X)
    * pow2 prec <= X.
Proof.
  intros Hloc HX d Hd Hmin Hmax.
  destruct (binary_round_aux_normal prec emax prec_pos false p e l num den
              Hloc Hd Hmin Hmax)
    as (m' & e' & m1 & -> & Hn & He & Hm1 & Herr).
  fold d in He, Herr, Hm1.
  split; [exact Hn|].
  set (n := (d - prec)%Z) in *.
  assert (Hn0 : (0 <= n)%Z) by (subst n; lia).
  destruct Hloc as (_ & Hden & Ht & _). rewrite shr_m_of_loc in Ht.
  pose proof (digits2_pos_bounds p) as [L _]. fold d in L.
  (* the value of the result, on the scale [2 ^ (e + n)] *)
  assert (V : SF2Q (S754_finite false m' e')
              == inject_Z m1 * pow2 n * pow2 e).
  { rewrite SF2Q_finite. rewrite <- Hm1.
    replace e' with ((e' - (e + n)) + (n + e))%Z at 1 by lia.
    rewrite inject_Z_mult, !pow2_add, pow2_inject by lia. ring. }
  assert (Dq : 0 < inject_Z den) by (rewrite <- (Zlt_Qlt 0); exact Hden).
  pose proof (pow2_pos e) as Pe. pose proof (pow2_pos n) as Pn.
  pose proof (pow2_pos prec) as Pp.
  (* the error, multiplied out *)
  assert (E : SF2Q (S754_finite false m' e') - X
              == inject_Z (m1 * (2 ^ n * den) - num) * (pow2 e / inject_Z den)).
  { rewrite V, HX. unfold Zminus.
    rewrite inject_Z_plus, inject_Z_opp, !inject_Z_mult, pow2_inject by lia.
    field. lra. }
  rewrite E, Qabs_Qmult.
  assert (Pq : 0 < pow2 e / inject_Z den).
  { apply Qlt_shift_div_l; lra. }
  rewrite (Qabs_pos (pow2 e / inject_Z den)) by lra.
  rewrite Qabs_inject_Z.
  (* bound the integer error and the value from below *)
  assert (B1 : 2 * inject_Z (Z.abs (m1 * (2 ^ n * den) - num))
               <= pow2 n * inject_Z den).
  { rewrite <- pow2_inject by lia. rewrite <- !inject_Z_mult.
    change 2 with (inject_Z 2). rewrite <- inject_Z_mult.
    rewrite <- Zle_Qle. exact Herr. }
  assert (B2 : pow2 (prec - 1) * pow2 n * inject_Z den <= inject_Z num).
  { rewrite <- !pow2_inject by lia. rewrite <- !inject_Z_mult.
    rewrite <- Zle_Qle. rewrite <- Z.pow_add_r by lia.
    replace (prec - 1 + n)%Z with (d - 1)%Z by (subst n; lia). nia. }
  assert (P1 : pow2 prec == 2 * pow2 (prec - 1)).
  { replace prec with (1 + (prec - 1))%Z at 1 by lia.
    rewrite pow2_add. reflexivity. }
  rewrite HX, P1.
  set (a := inject_Z (Z.abs (m1 * (2 ^ n * den) - num))) in *.
  set (k := pow2 e / inject_Z den) in *.
  assert (K : inject_Z num / inject_Z den * pow2 e == inject_Z num * k).
  { unfold k. field. lra. }
  rewrite K.
  assert (G : a * k * (2 * pow2 (prec - 1))
              == (2 * a) * pow2 (prec - 1) * k) by ring.
  rewrite G.
  apply Qmult_le_compat_r; [|lra].
  pose proof (pow2_pos (prec - 1)) as Pp1.
  apply Qle_trans with (pow2 n * inject_Z den * pow2 (prec - 1)).
  - apply Qmult_le_compat_r; lra.
  - lra.
Qed.
Lemma located_value_bounds p l num den :
  located (shr_record_of_loc (Zpos p) l) num den ->
  pow2 (Zpos (digits2_pos p) - 1) <= inject_Z num / inject_Z den
    < pow2 (Zpos (digits2_pos p)).
Proof.
  intros (_ & Hden & Ht & _). rewrite shr_m_of_loc in Ht.
  pose proof (digits2_pos_bounds p) as [L U].
  assert (Dq : 0 < inject_Z den) by (rewrite <- (Zlt_Qlt 0); exact Hden).
  rewrite <- !pow2_inject by lia.
  split.
  - apply Qle_shift_div_l; [exact Dq|].
    rewrite <- inject_Z_mult, <- Zle_Qle. nia.
  - apply Qlt_shift_div_r; [exact Dq|].
    rewrite <- inject_Z_mult, <- Zlt_Qlt. nia.
Qed.

(** The same with the range stated on the value being rounded. *)
Lemma binary_round_aux_rel_value p e l num den X :
  located (shr_record_of_loc (Zpos p) l) num den ->
  X == inject_Z num / inject_Z den * pow2 e ->
  (prec <= Zpos (digits2_pos p))%Z ->
  pow2 (emin prec emax + prec - 1) <= X -> X < pow2 (emax - 1) ->
  pnormal prec emax (binary_round_aux prec emax false (Zpos p) e l) /\
  Qabs (SF2Q (binary_round_aux prec emax false (Zpos p) e l) - X)
    * pow2 prec <= X.
Proof.
  intros Hloc HX Hd Hlo Hhi.
  pose proof (located_value_bounds p l num den Hloc) as [L U].
  pose proof (pow2_pos e) as Pe.
  set (d := Zpos (digits2_pos p)) in *.
  assert (XL : pow2 (d - 1 + e) <= X).
  { rewrite HX, pow2_add. apply Qmult_le_compat_r; lra. }
  assert (XU : X < pow2 (d + e)).
  { rewrite HX, pow2_add. apply Qmult_lt_compat_r; lra. }
  assert (A : (emin prec emax + prec - 1 < d + e)%Z)
    by (apply pow2_lt_inv; lra).
  assert (B : (d - 1 + e < emax - 1)%Z) by (apply pow2_lt_inv; lra).
  apply (binary_round_aux_rel p e l num den X Hloc HX); fold d; lia.
Qed.
End RoundQ.

(** ** The operations on normal floats *)

Lemma new_location_located m2 q r :
  (0 < m2)%Z -> (0 <= q)%Z -> (0 <= r < m2)%Z ->
  located (shr_record_of_loc q (new_location m2 r)) (m2 * q + r) m2.
Proof.
  intros H2 Hq Hr. unfold located. rewrite shr_m_of_loc.
  replace (2 * (m2 * q + r - q * m2))%Z with (2 * r)%Z by lia.
  split; [exact Hq|]. split; [exact H2|]. split; [lia|].
  unfold new_location.
  destruct (Z.even m2) eqn:Ev;
    [unfold new_location_even | unfold new_location_odd];
    destruct (Z.eqb_spec r 0) as [-> | Hr0];
    try (cbn [shr_record_of_loc shr_r shr_s];
         split; split; intros; try discriminate; lia).
  - destruct (Z.compare_spec (2 * r) m2);
      cbn [shr_record_of_loc shr_r shr_s];
      split; split; intros; try discriminate; try reflexivity;
      try lia; exfalso; lia.
  - assert (Od : (2 * r <> m2)%Z).
    { intros C. rewrite <- C, Z.even_mul in Ev. discriminate. }
    destruct (Z.compare_spec (2 * r + 1) m2);
      cbn [shr_record_of_loc shr_r shr_s];
      split; split; intros; try discriminate; try reflexivity;
      try lia; exfalso; lia.
Qed.

Lemma shiftl_by_cases m s :
  (0 < s)%Z ->
  match s with
  | Zpos _ => Z.shiftl m s
  | Z0 => m
  | Zneg _ => 0%Z
  end = (m * 2 ^ s)%Z.
Proof.
  intros H. destruct s; try lia. apply Z.shiftl_mul_pow2. lia.
Qed.

Section Ops.
Variables prec emax : Z.
Hypothesis prec_pos : (0 < prec)%Z.

Lemma digits_ge_prec p :
  (2 ^ (prec - 1) <= Zpos p)%Z -> (prec <= Zpos (digits2_pos p))%Z.
Proof.
  intros H. pose proof (digits2_pos_bounds p) as [_ U].
  assert (2 ^ (prec - 1) < 2 ^ Zpos (digits2_pos p))%Z by lia.
  apply pow2_lt_mono_inv in H0; lia.
Qed.

(** Multiplication. *)
Lemma SFmul_rel a b :
  pnormal prec emax a -> pnormal prec emax b ->
  pow2 (emin prec emax + prec - 1) <= SF2Q a * SF2Q b ->
  SF2Q a * SF2Q b < pow2 (emax - 1) ->
  pnormal prec emax (SFmul prec emax a b) /\
  Qabs (SF2Q (SFmul prec emax a b) - SF2Q a * SF2Q b) * pow2 prec
    <= SF2Q a * SF2Q b.
Proof.
  destruct a as [| | | [] ma ea]; cbn [pnormal]; try tauto.
  destruct b as [| | | [] mb eb]; cbn [pnormal]; try tauto.
  intros [Da _] [Db _] Hlo Hhi. cbn [SFmul xorb].
  apply binary_round_aux_rel_value
    with (num := Zpos (ma * mb)) (den := 1%Z); auto.
  - apply located_of_loc_exact. lia.
  - rewrite !SF2Q_finite, pow2_add, Pos2Z.inj_mul, inject_Z_mult.
    change (inject_Z 1) with 1. field.
  - apply digits_ge_prec.
    pose proof (digits2_pos_bounds ma) as [La _]. rewrite Da in La.
    rewrite Pos2Z.inj_mul. nia.
Qed.

(** Conversion from a wider format. *)
Lemma binary_round_rel m e :
  (prec <= Zpos (digits2_pos m))%Z ->
  pow2 (emin prec emax + prec - 1) <= SF2Q (S754_finite false m e) ->
  SF2Q (S754_finite false m e) < pow2 (emax - 1) ->
  pnormal prec emax (binary_round prec emax false m e) /\
  Qabs (SF2Q (binary_round prec emax false m e)
        - SF2Q (S754_finite false m e)) * pow2 prec
    <= SF2Q (S754_finite false m e).
Proof.
  intros Hd Hlo Hhi. unfold binary_round.
  assert (S : shl_align m e (fexp prec emax (Zpos (digits2_pos m) + e))
              = (m, e)).
  { unfold shl_align.
    assert (E : (0 <= fexp prec emax (Zpos (digits2_pos m) + e) - e)%Z)
      by (unfold fexp; lia).
    destruct (fexp prec emax (Zpos (digits2_pos m) + e) - e)%Z;
      try reflexivity; lia. }
  rewrite S.
  apply binary_round_aux_rel_value with (num := Zpos m) (den := 1%Z).
  - exact prec_pos.
  - apply located_of_loc_exact. lia.
  - rewrite SF2Q_finite. change (inject_Z 1) with 1. field.
  - exact Hd.
  - exact Hlo.
  - exact Hhi.
Qed.

(** Division. *)
Lemma SFdiv_rel a b :
  pnormal prec emax a -> pnormal prec emax b ->
  pow2 (emin prec emax + prec) <= SF2Q a / SF2Q b ->
  SF2Q a / SF2Q b < pow2 (emax - 1) ->
  pnormal prec emax (SFdiv prec emax a b) /\
  Qabs (SF2Q (SFdiv prec emax a b) - SF2Q a / SF2Q b) * pow2 prec
    <= SF2Q a / SF2Q b.
Proof.
  destruct a as [| | | [] ma ea]; cbn [pnormal]; try tauto.
  destruct b as [| | | [] mb eb]; cbn [pnormal]; try tauto.
  intros [Da _] [Db _] Hlo Hhi.
  pose proof (pnormal_value_bounds prec prec_pos ma ea Da) as [LA UA].
  pose proof (pnormal_value_bounds prec prec_pos mb eb Db) as [LB UB].
  pose proof (digits2_pos_bounds ma) as [La Ua]. rewrite Da in La, Ua.
  pose proof (digits2_pos_bounds mb) as [Lb Ub]. rewrite Db in Lb, Ub.
  set (A := SF2Q (S754_finite false ma ea)) in *.
  set (B := SF2Q (S754_finite false mb eb)) in *.
  pose proof (pow2_pos (prec - 1 + eb)) as PB.
  (* the quotient of the values is below [2 ^ (ea - eb + 1)] *)
  assert (QU : A / B < pow2 (ea - eb + 1)).
  { apply Qlt_shift_div_r; [lra|].
    apply Qlt_le_trans with (pow2 (prec + ea)); [lra|].
    apply Qle_trans with (pow2 (ea - eb + 1) * pow2 (prec - 1 + eb)).
    - rewrite <- pow2_add. apply pow2_le. lia.
    - apply Qmult_le_l; [apply pow2_pos | lra]. }
  assert (Ee : (emin prec emax + prec < ea - eb + 1)%Z)
    by (apply pow2_lt_inv; lra).
  cbn [SFdiv xorb]. unfold SFdiv_core_binary. cbn [Zdigits2].
  rewrite Da, Db.
  assert (F : Z.min (fexp prec emax (prec + ea - (prec + eb))) (ea - eb)
              = (ea - eb - prec)%Z) by (unfold fexp; lia).
  rewrite F.
  replace (ea - eb - (ea - eb - prec))%Z with prec by lia.
  rewrite shiftl_by_cases by exact prec_pos.
  pose proof (Z_div_mod (Zpos ma * 2 ^ prec) (Zpos mb) ltac:(lia)) as DM.
  destruct (Z.div_eucl (Zpos ma * 2 ^ prec) (Zpos mb)) as [q r] eqn:DE.
  destruct DM as [DM Rr].
  assert (P2 : (2 ^ prec = 2 * 2 ^ (prec - 1))%Z).
  { rewrite <- Z.pow_succ_r by lia. f_equal. lia. }
  assert (Q1 : (2 ^ (prec - 1) <= q)%Z) by nia.
  destruct q as [| pq | pq]; try lia.
  apply binary_round_aux_rel_value
    with (num := (Zpos mb * Zpos pq + r)%Z) (den := Zpos mb); auto.
  - apply new_location_located; lia.
  - rewrite <- DM. unfold A, B. rewrite !SF2Q_finite.
    replace ea with ((ea - eb - prec) + prec + eb)%Z at 1 by lia.
    rewrite inject_Z_mult, !pow2_add, pow2_inject by lia.
    field. split.
    + change 0 with (inject_Z 0). rewrite inject_Z_injective. lia.
    + pose proof (pow2_pos eb). lra.
  - apply digits_ge_prec. exact Q1.
  - apply Qle_trans with (pow2 (emin prec emax + prec)); [|exact Hlo].
    apply pow2_le. lia.
Qed.
End Ops.

(** ** Integers held exactly *)

Local Open Scope Z_scope.

Lemma Zdigits2_bounds N :
  0 < N -> 2 ^ (Zdigits2 N - 1) <= N < 2 ^ Zdigits2 N.
Proof.
  intros H. destruct N as [| p | p]; try lia. apply digits2_pos_bounds.
Qed.

Lemma Zdigits2_pos N : 0 < N -> 0 < Zdigits2 N.
Proof. intros H. destruct N; try lia. reflexivity. Qed.

Lemma Zdigits2_shift N k :
  0 < N -> 0 <= k -> Zdigits2 (N * 2 ^ k) = Zdigits2 N + k.
Proof.
  intros HN Hk. pose proof (Zdigits2_bounds N HN) as [L U].
  pose proof (Zdigits2_pos N HN) as D.
  assert (P : 0 < 2 ^ k) by (apply Z.pow_pos_nonneg; lia).
  apply Zdigits2_unique; [|nia].
  replace (Zdigits2 N + k - 1) with (Zdigits2 N - 1 + k) by lia.
  rewrite !Z.pow_add_r by lia. nia.
Qed.

Lemma Zdigits2_le N k : 0 < N -> N < 2 ^ k -> Zdigits2 N <= k.
Proof.
  intros HN H. pose proof (Zdigits2_bounds N HN) as [L _].
  pose proof (Zdigits2_pos N HN) as D.
  destruct (Z_le_gt_dec (Zdigits2 N) k) as [Le | Gt]; [exact Le|].
  exfalso. assert (2 ^ k <= 2 ^ (Zdigits2 N - 1))
    by (apply Z.pow_le_mono_r; lia). lia.
Qed.

Lemma pos_iter_xO p k : Zpos (Pos.iter xO p k) = Zpos p * 2 ^ Zpos k.
Proof.
  induction k as [| k IH] using Pos.peano_ind.
  - cbn [Pos.iter]. rewrite Z.pow_1_r. lia.
  - rewrite Pos.iter_succ, Pos2Z.inj_xO, IH, Pos2Z.inj_succ, Z.pow_succ_r by lia.
    lia.
Qed.

Section IntFloat.
Variables prec emax : Z.
Hypothesis prec_pos : 0 < prec.
Hypothesis prec_lt_emax : prec < emax.

Lemma int_float_pnormal N :
  0 < N < 2 ^ prec -> pnormal prec emax (int_float prec N).
Proof.
  intros [HN HU]. pose proof (Zdigits2_le N prec HN HU) as D.
  pose proof (Zdigits2_pos N HN) as D0.
  unfold int_float. cbn [pnormal].
  assert (P : 0 < 2 ^ (prec - Zdigits2 N)) by (apply Z.pow_pos_nonneg; lia).
  split.
  - pose proof (Zdigits2_shift N (prec - Zdigits2 N) HN ltac:(lia)) as S.
    destruct (N * 2 ^ (prec - Zdigits2 N)) as [| q | q] eqn:E; try nia.
    cbn [Z.to_pos]. cbn [Zdigits2] in S. lia.
  - unfold emin. lia.
Qed.

Lemma int_float_value N :
  0 < N < 2 ^ prec -> (SF2Q (int_float prec N) == inject_Z N)%Q.
Proof.
  intros [HN HU]. pose proof (Zdigits2_le N prec HN HU) as D.
  unfold int_float. rewrite SF2Q_finite.
  assert (P : 0 < 2 ^ (prec - Zdigits2 N)) by (apply Z.pow_pos_nonneg; lia).
  rewrite Z2Pos.id by nia.
  rewrite inject_Z_mult, pow2_inject by lia.
  rewrite <- Qmult_assoc, <- pow2_add.
  replace (prec - Zdigits2 N + (Zdigits2 N - prec)) with 0 by lia.
  change (pow2 0) with 1%Q. ring.
Qed.

Lemma binary_normalize_int N :
  0 < N < 2 ^ prec -> binary_normalize prec emax N 0 false = int_float prec N.
Proof.
  intros [HN HU]. pose proof (Zdigits2_le N prec HN HU) as D.
  destruct N as [| p | p]; try lia. cbn [Zdigits2] in D.
  unfold int_float. cbn [binary_normalize Zdigits2].
  unfold binary_round, shl_align.
  set (dN := Zpos (digits2_pos p)) in *.
  assert (F : fexp prec emax (dN + 0) = dN - prec)
    by (unfold fexp, emin; subst dN; lia).
  rewrite F, Z.sub_0_r.
  destruct (dN - prec) as [| k | k] eqn:Ek; try lia.
  - (* already a full mantissa *)
    rewrite binary_round_aux_exact; fold dN;
      try (unfold emin; lia); try exact prec_pos.
    + replace (dN - prec) with 0 by lia.
      replace (prec - dN) with 0 by lia.
      rewrite Z.pow_0_r, Z.div_1_r, Z.mul_1_r. reflexivity.
    + replace (dN - prec) with 0 by lia. rewrite Z.pow_0_r.
      apply Z.mod_1_r.
  - (* shifted left to a full mantissa *)
    assert (Dg : Zpos (digits2_pos (Pos.iter xO p k)) = prec).
    { pose proof (Zdigits2_shift (Zpos p) (Zpos k) ltac:(lia) ltac:(lia)) as S.
      rewrite <- pos_iter_xO in S. cbn [Zdigits2] in S. fold dN in S. lia. }
    rewrite binary_round_aux_exact; rewrite ?Dg;
      try (unfold emin; lia); try exact prec_pos.
    + rewrite Z.sub_diag, Z.pow_0_r, Z.div_1_r, Z.add_0_r.
      rewrite pos_iter_xO.
      replace (prec - dN) with (Zpos k) by lia. reflexivity.
    + rewrite Z.sub_diag, Z.pow_0_r. apply Z.mod_1_r.
Qed.

(** The product of two integers is exact while it fits the mantissa. *)
Lemma SFmul_int a b :
  0 < a -> 0 < b -> a * b < 2 ^ prec ->
  SFmul prec emax (int_float prec a) (int_float prec b) = int_float prec (a * b).
Proof.
  intros Ha Hb Hab.
  assert (Ua : a < 2 ^ prec) by nia.
  assert (Ub : b < 2 ^ prec) by nia.
  pose proof (Zdigits2_le a prec Ha Ua) as Da.
  pose proof (Zdigits2_le b prec Hb Ub) as Db.
  pose proof (Zdigits2_le (a * b) prec ltac:(nia) Hab) as Dab.
  pose proof (Zdigits2_bounds a Ha) as [La _].
  pose proof (Zdigits2_bounds b Hb) as [Lb _].
  pose proof (Zdigits2_bounds (a * b) ltac:(nia)) as [_ Uab'].
  pose proof (Zdigits2_pos a Ha) as Pa.
  pose proof (Zdigits2_pos b Hb) as Pb.
  pose proof (Zdigits2_pos (a * b) ltac:(nia)) as Pab.
  set (da := Zdigits2 a) in *. set (db := Zdigits2 b) in *.
  set (dab := Zdigits2 (a * b)) in *.
  (* the digits of the product of the integers *)
  assert (Dl : da + db - 1 <= dab).
  { assert (2 ^ (da - 1) * 2 ^ (db - 1) <= a * b).
    { apply Z.mul_le_mono_nonneg; try lia; apply Z.pow_nonneg; lia. }
    rewrite <- Z.pow_add_r in H by lia.
    assert (2 ^ (da - 1 + (db - 1)) < 2 ^ dab) by lia.
    apply pow2_lt_mono_inv in H0; lia. }
  unfold int_float. fold da db dab. cbn [SFmul xorb].
  set (ka := prec - da) in *. set (kb := prec - db) in *.
  assert (Pka : 0 < 2 ^ ka) by (apply Z.pow_pos_nonneg; lia).
  assert (Pkb : 0 < 2 ^ kb) by (apply Z.pow_pos_nonneg; lia).
  assert (M : Zpos (Z.to_pos (a * 2 ^ ka) * Z.to_pos (b * 2 ^ kb))
              = (a * b) * 2 ^ (ka + kb)).
  { rewrite Pos2Z.inj_mul, !Z2Pos.id by nia.
    rewrite Z.pow_add_r by lia. ring. }
  assert (Dg : Zpos (digits2_pos (Z.to_pos (a * 2 ^ ka) * Z.to_pos (b * 2 ^ kb)))
               = dab + (ka + kb)).
  { change (Zpos (digits2_pos ?x)) with (Zdigits2 (Zpos x)).
    rewrite M. apply Zdigits2_shift; [nia | lia]. }
  rewrite binary_round_aux_exact; rewrite ?Dg, ?M;
    try (unfold emin; lia); try exact prec_pos.
  - set (n := dab + (ka + kb) - prec).
    assert (Hn : 0 <= n <= ka + kb) by (subst n; lia).
    assert (E : (a * b) * 2 ^ (ka + kb)
                = ((a * b) * 2 ^ (prec - dab)) * 2 ^ n).
    { replace (ka + kb) with (prec - dab + n) by (subst n; lia).
      rewrite Z.pow_add_r by lia. ring. }
    rewrite E, Z.div_mul by (apply Z.pow_nonzero; lia).
    f_equal. subst n ka kb. lia.
  - set (n := dab + (ka + kb) - prec).
    assert (Hn : 0 <= n <= ka + kb) by (subst n; lia).
    assert (E : (a * b) * 2 ^ (ka + kb)
                = ((a * b) * 2 ^ (prec - dab)) * 2 ^ n).
    { replace (ka + kb) with (prec - dab + n) by (subst n; lia).
      rewrite Z.pow_add_r by lia. ring. }
    rewrite E. apply Z.mod_mul. apply Z.pow_nonzero; lia.
Qed.
End IntFloat.

(** ** The estimator *)

Local Open Scope Q_scope.

(** Comparison of a value with a power of two, through a constant in
    between: the bounds on the operands are in the context. *)
Ltac eval_pow2 k :=
  let c := eval vm_compute in (pow2 k) in change (pow2 k) with c.

Ltac above_pow2 k :=
  apply Qle_trans with (pow2 k);
  [ apply pow2_le; unfold emin; lia | eval_pow2 k; lra ].

Ltac below_pow2 k :=
  apply Qlt_le_trans with (pow2 k);
  [ eval_pow2 k; lra | apply pow2_le; lia ].

Lemma rel_error_bounds V X c :
  0 < c -> Qabs (V - X) * c <= X ->
  X * (c - 1) <= V * c /\ V * c <= X * (c + 1).
Proof.
  intros Hc H. 
  assert (A : Qabs (V - X) <= X / c) by (apply Qle_shift_div_l; assumption).
  apply Qabs_Qle_condition in A. destruct A as [A1 A2].
  assert (E : X / c * c == X) by (field; lra).
  assert (B1 : (V - X) * c <= X / c * c)
    by (apply Qmult_le_compat_r; lra).
  assert (B2 : - (X / c) * c <= (V - X) * c)
    by (apply Qmult_le_compat_r; lra).
  split; lra.
Qed.

Lemma rel_error_intro V X c :
  0 < c -> X * (c - 1) <= V * c -> V * c <= X * (c + 1) ->
  Qabs (V - X) * c <= X.
Proof.
  intros Hc H1 H2.
  assert (E : X / c * c == X) by (field; lra).
  rewrite <- E at 2. apply Qmult_le_compat_r; [|lra].
  apply Qabs_Qle_condition. split.
  - apply (Qmult_le_r _ _ c Hc).
    assert (E2 : - (X / c) * c == - X) by (field; lra).
    rewrite E2. lra.
  - apply (Qmult_le_r _ _ c Hc). rewrite E. lra.
Qed.

Lemma pnormal_lit_1e6 : pnormal 53 1024 lit_1e6.
Proof. cbn. split; [reflexivity | lia]. Qed.

Lemma pnormal_lit_60 : pnormal 53 1024 lit_60.
Proof. cbn. split; [reflexivity | lia]. Qed.

Lemma value_lit_1e6 : SF2Q lit_1e6 == 1000000.
Proof. reflexivity. Qed.

Lemma value_lit_60 : SF2Q lit_60 == 60.
Proof. reflexivity. Qed.

(** For a nonzero interval and magnet count the estimator returns a normal
    positive [float] within relative error [2 ^ -23] of
    [6e7 / (interval * magnets)]. *)
Lemma rpmFromInterval_rel i p :
  (0 < i < 2 ^ 32)%Z -> (0 < p < 2 ^ 8)%Z ->
  pnormal 24 128 (rpmFromInterval i p) /\
  Qabs (SF2Q (rpmFromInterval i p) - 60000000 / (inject_Z i * inject_Z p))
    * pow2 23 <= 60000000 / (inject_Z i * inject_Z p).
Proof.
  intros Hi Hp. unfold rpmFromInterval, u32, u8. cbv zeta.
  rewrite !Z.mod_small by lia.
  assert (Gi : (i =? 0)%Z = false) by (apply Z.eqb_neq; lia).
  assert (Gp : (p =? 0)%Z = false) by (apply Z.eqb_neq; lia).
  rewrite Gi, Gp. cbn [orb].
  unfold F64.of_Z, F64.mul, F64.div, F32.of_double, F64.prec, F64.emax,
    F32.prec, F32.emax.
  assert (P53 : (0 < 53)%Z) by lia. assert (P24 : (0 < 24)%Z) by lia.
  assert (E64 : (53 < 1024)%Z) by lia.
  assert (Hi53 : (0 < i < 2 ^ 53)%Z) by lia.
  assert (Hp53 : (0 < p < 2 ^ 53)%Z) by lia.
  assert (HN : (0 < i * p < 2 ^ 40)%Z) by nia.
  rewrite (binary_normalize_int 53 1024 P53 E64 i Hi53).
  rewrite (binary_normalize_int 53 1024 P53 E64 p Hp53).
  rewrite (SFmul_int 53 1024 P53 E64 i p) by lia.
  set (N := (i * p)%Z) in *.
  pose proof (int_float_pnormal 53 1024 P53 E64 N ltac:(lia)) as Nc.
  pose proof (int_float_value 53 P53 N ltac:(lia)) as Vc.
  set (c := int_float 53 N) in *.
  assert (NQ : 1 <= inject_Z N /\ inject_Z N < 1099511627776).
  { split.
    - change 1 with (inject_Z 1). rewrite <- Zle_Qle. lia.
    - change 1099511627776 with (inject_Z (2 ^ 40)). rewrite <- Zlt_Qlt. lia. }
  (* the quotient 1e6 / N *)
  set (X1 := 1000000 / inject_Z N).
  assert (X1b : pow2 (-21) <= X1 /\ X1 <= 1000000).
  { unfold X1. split.
    - apply Qle_shift_div_l; [lra|].
      change (pow2 (-21)) with (1 # 2097152). lra.
    - apply Qle_shift_div_r; lra. }
  assert (EX1 : SF2Q lit_1e6 / SF2Q c == X1).
  { rewrite value_lit_1e6, Vc. reflexivity. }
  destruct (SFdiv_rel 53 1024 P53 lit_1e6 c pnormal_lit_1e6 Nc) as [Nq Eq].
  { rewrite EX1. apply Qle_trans with (pow2 (-21)); [|tauto].
    apply pow2_le. unfold emin. lia. }
  { rewrite EX1. apply Qle_lt_trans with 1000000; [tauto|].
    apply Qlt_le_trans with (pow2 20); [reflexivity|]. apply pow2_le. lia. }
  rewrite EX1 in Eq.
  set (q := SFdiv 53 1024 lit_1e6 c) in *.
  change (pow2 53) with 9007199254740992 in Eq.
  apply rel_error_bounds in Eq; [|reflexivity]. destruct Eq as [Eq1 Eq2].
  change (pow2 (-21)) with (1 # 2097152) in X1b.
  (* times sixty *)
  destruct (SFmul_rel 53 1024 P53 q lit_60 Nq pnormal_lit_60) as [Nr Er].
  { rewrite value_lit_60.
    above_pow2 (-22)%Z. }
  { rewrite value_lit_60.
    below_pow2 30%Z. }
  rewrite value_lit_60 in Er.
  set (r := SFmul 53 1024 q lit_60) in *.
  change (pow2 53) with 9007199254740992 in Er.
  apply rel_error_bounds in Er; [|reflexivity]. destruct Er as [Er1 Er2].
  (* narrowing to float *)
  destruct r as [| | | [] mr er] eqn:Hr; cbn [pnormal] in Nr; try tauto.
  destruct Nr as [Dr _].
  destruct (binary_round_rel 24 128 P24 mr er) as [Nf Ef].
  { rewrite Dr. lia. }
  { above_pow2 (-22)%Z. }
  { below_pow2 30%Z. }
  split; [exact Nf|].
  set (f := binary_round 24 128 false mr er) in *.
  change (pow2 24) with 16777216 in Ef.
  apply rel_error_bounds in Ef; [|reflexivity]. destruct Ef as [Ef1 Ef2].
  assert (T : 60000000 / (inject_Z i * inject_Z p) == 60 * X1).
  { unfold X1, N. rewrite inject_Z_mult. field.
    split; change 0 with (inject_Z 0); rewrite inject_Z_injective; lia. }
  rewrite T. change (pow2 23) with 8388608.
  apply rel_error_intro; [reflexivity | lra | lra].
Qed.

(** ** Signs *)

Local Open Scope Z_scope.

Lemma iter_shr_1_nonneg n mrs :
  0 <= shr_m mrs -> 0 <= shr_m (Nat.iter n shr_1 mrs).
Proof.
  intros H. induction n as [| n IH]; [exact H|].
  cbn [Nat.iter nat_rect]. rewrite shr_1_nonneg by exact IH.
  cbn [shr_m]. apply Z.div_pos; [exact IH | lia].
Qed.

Lemma shr_nonneg mrs e n :
  0 <= shr_m mrs -> 0 <= shr_m (fst (shr mrs e n)).
Proof.
  intros H. destruct n as [| k | k]; cbn [shr fst]; try exact H.
  rewrite iter_pos_nat. apply iter_shr_1_nonneg, H.
Qed.

Lemma round_nearest_even_nonneg m l : 0 <= m -> 0 <= round_nearest_even m l.
Proof.
  intros H. destruct l as [| []]; cbn [round_nearest_even];
    try destruct (Z.even m); lia.
Qed.

(** Rounding a nonnegative mantissa with sign bit clear gives no NaN and no
    negative result. *)
Lemma binary_round_aux_pos prec emax m e l :
  0 <= m -> fpos_class (binary_round_aux prec emax false m e l).
Proof.
  intros H. unfold binary_round_aux, shr_fexp.
  destruct (shr (shr_record_of_loc m l) e
              (fexp prec emax (Zdigits2 m + e) - e)) as [mrs' e'] eqn:S1.
  assert (H1 : 0 <= shr_m mrs').
  { change mrs' with (fst (mrs', e')). rewrite <- S1.
    apply shr_nonneg. rewrite shr_m_of_loc. exact H. }
  set (m1 := round_nearest_even (shr_m mrs') (loc_of_shr_record mrs')).
  assert (H2 : 0 <= m1) by (apply round_nearest_even_nonneg, H1).
  destruct (shr (shr_record_of_loc m1 loc_Exact) e'
              (fexp prec emax (Zdigits2 m1 + e') - e')) as [mrs'' e''] eqn:S2.
  assert (H3 : 0 <= shr_m mrs'').
  { change mrs'' with (fst (mrs'', e'')). rewrite <- S2.
    apply shr_nonneg. rewrite shr_m_of_loc. exact H2. }
  destruct (shr_m mrs'') as [| k | k]; try lia; cbn [fpos_class]; auto.
  destruct (e'' <=? emax - prec); exact I.
Qed.

Lemma SFmul_pos_class prec emax a mb eb :
  fpos_class a ->
  fpos_class (SFmul prec emax a (S754_finite false mb eb)).
Proof.
  destruct a as [[] | [] | | [] ma ea]; cbn [fpos_class SFmul xorb];
    try tauto.
  intros _. apply binary_round_aux_pos. lia.
Qed.

Lemma SFdiv_pos_class prec emax a mb eb :
  fpos_class a ->
  fpos_class (SFdiv prec emax a (S754_finite false mb eb)).
Proof.
  destruct a as [[] | [] | | [] ma ea]; cbn [fpos_class SFdiv xorb];
    try tauto.
  intros _. unfold SFdiv_core_binary.
  set (m' := match _ with Z0 => Zpos ma | Zpos _ => _ | Zneg _ => 0 end).
  assert (Hm : 0 <= m').
  { subst m'. destruct (_ - _ - _); try lia.
    rewrite Z.shiftl_mul_pow2 by lia.
    apply Z.mul_nonneg_nonneg; [lia | apply Z.pow_nonneg; lia]. }
  pose proof (Z_div_mod m' (Zpos mb) ltac:(lia)) as DM.
  destruct (Z.div_eucl m' (Zpos mb)) as [q r]. destruct DM as [DM Rr].
  apply binary_round_aux_pos. nia.
Qed.

Lemma fpos_class_fge0 x : fpos_class x -> fge0 x = true.
Proof.
  destruct x as [[] | [] | | [] m e]; cbn; tauto.
Qed.

Lemma pnormal_fpos_class prec emax x : pnormal prec emax x -> fpos_class x.
Proof.
  destruct x as [[] | [] | | [] m e]; cbn; tauto.
Qed.

Lemma rpmFromInterval_wrap i p :
  rpmFromInterval i p = rpmFromInterval (u32 i) (u8 p).
Proof.
  unfold rpmFromInterval, u32, u8. rewrite !Z.mod_mod by lia. reflexivity.
Qed.

Lemma rpmFromInterval_cases i p :
  rpmFromInterval i p = lit_0f \/ pnormal 24 128 (rpmFromInterval i p).
Proof.
  rewrite rpmFromInterval_wrap.
  pose proof (Z.mod_pos_bound i (2 ^ 32) ltac:(lia)) as Bi.
  pose proof (Z.mod_pos_bound p (2 ^ 8) ltac:(lia)) as Bp.
  fold (u32 i) in Bi. fold (u8 p) in Bp.
  destruct (Z.eq_dec (u32 i) 0) as [Zi | Ni].
  { left. unfold rpmFromInterval. rewrite Zi. reflexivity. }
  destruct (Z.eq_dec (u8 p) 0) as [Zp | Np].
  { left. unfold rpmFromInterval. rewrite Zp. cbv zeta.
    change (u8 0) with 0. rewrite orb_true_r. reflexivity. }
  right. apply rpmFromInterval_rel; lia.
Qed.

Lemma kinematics_fpos_class cfg micros snap :
  fgt0 (WHEEL_CIRCUMFERENCE_M cfg) = true ->
  is_finite (WHEEL_CIRCUMFERENCE_M cfg) = true ->
  fpos_class (fst (kinematics cfg micros snap)) /\
  fpos_class (snd (kinematics cfg micros snap)).
Proof.
  intros Hpos Hfin. unfold kinematics.
  destruct (_ && _); cbn [fst snd]; [|split; exact I].
  destruct (WHEEL_CIRCUMFERENCE_M cfg) as [[] | [] | | [] mc ec];
    try discriminate.
  assert (R : fpos_class (rpmFromInterval (g_lastIntervalMicros snap)
                                         (MAGNETS_PER_REV cfg))).
  { destruct (rpmFromInterval_cases (g_lastIntervalMicros snap)
                                    (MAGNETS_PER_REV cfg)) as [-> | N].
    - exact I.
    - eapply pnormal_fpos_class, N. }
  split; [exact R|].
  unfold speedMpsFromRPM, F32.div, F32.mul, lit_60f.
  apply SFdiv_pos_class, SFmul_pos_class, R.
Qed.

(** ** The claims about the estimator and its signs *)

Local Open Scope Z_scope.

Lemma lit_3_6f_nearest : lit_3_6f = F32.of_decimal 36 10.
Proof. reflexivity. Qed.

Lemma lit_0_210f_nearest : lit_0_210f = F32.of_decimal 21 100.
Proof. reflexivity. Qed.

Lemma lit_60f_exact : lit_60f = F32.of_Z 60.
Proof. reflexivity. Qed.

Lemma lit_1e6_exact : lit_1e6 = F64.of_Z 1000000.
Proof. reflexivity. Qed.

Lemma lit_60_exact : lit_60 = F64.of_Z 60.
Proof. reflexivity. Qed.

Lemma rpmFromInterval_nonzero i p :
  0 < i < 2 ^ 32 -> 0 < p < 2 ^ 8 ->
  rpmFromInterval i p =
    F32.of_double
      (F64.mul (F64.div lit_1e6 (F64.mul (F64.of_Z i) (F64.of_Z p))) lit_60).
Proof.
  intros Hi Hp. unfold rpmFromInterval, u32, u8. cbv zeta.
  rewrite !Z.mod_small by lia.
  assert (Gi : (i =? 0) = false) by (apply Z.eqb_neq; lia).
  assert (Gp : (p =? 0) = false) by (apply Z.eqb_neq; lia).
  rewrite Gi, Gp. reflexivity.
Qed.

(** C3: for every nonzero interval and magnet count the estimator returns
    [6e7 / (interval_us * pulses_per_revolution)], computed in double
    precision and narrowed to float: the result is a normal positive float
    within relative error [2^-23] (one unit in the last place) of that
    quotient.  With circumference 0.210, one pulse per revolution and an
    interval of 500,000 microseconds the sampler yields rpm = 120 exactly,
    speed_mps the float nearest 0.42 and speed_kph the float nearest
    1.512. *)
Theorem C3_rpm_is_6e7_over_interval_times_pulses i p :
  0 < i < 2 ^ 32 -> 0 < p < 2 ^ 8 ->
  (rpmFromInterval i p =
     F32.of_double
       (F64.mul (F64.div lit_1e6 (F64.mul (F64.of_Z i) (F64.of_Z p))) lit_60)
   /\ pnormal 24 128 (rpmFromInterval i p)
   /\ (Qabs (SF2Q (rpmFromInterval i p)
             - 60000000 / (inject_Z i * inject_Z p))
       <= (1 # 8388608) * (60000000 / (inject_Z i * inject_Z p)))%Q)
  /\
  (let k := kinematics stock 600000
              {| g_pulseCount := 1; g_lastPulseMicros := 500000;
                 g_lastIntervalMicros := 500000 |} in
   let kph := speed_kph (package (snd k) (fst k) 0 0) in
   fst k = rpmFromInterval 500000 1 /\
   fst k = F32.of_Z 120 /\ (SF2Q (fst k) == 120)%Q /\
   snd k = F32.of_decimal 42 100 /\
   (Qabs (SF2Q (snd k) - (42 # 100)) <= (1 # 16777216) * (42 # 100))%Q /\
   kph = F32.of_decimal 1512 1000 /\
   (Qabs (SF2Q kph - (1512 # 1000)) <= (1 # 16777216) * (1512 # 1000))%Q).
Proof.
  intros Hi Hp. split.
  - split; [apply rpmFromInterval_nonzero; assumption|].
    destruct (rpmFromInterval_rel i p Hi Hp) as [N E].
    split; [exact N|].
    change (pow2 23) with 8388608%Q in E.
    set (A := Qabs _) in *. set (T := (60000000 / _)%Q) in *.
    lra.
  - vm_compute. repeat split; intros; discriminate.
Qed.

Lemma C3_witness :
  pnormal 24 128 (rpmFromInterval 500000 1) /\
  (Qabs (SF2Q (rpmFromInterval 500000 1)
         - 60000000 / (inject_Z 500000 * inject_Z 1))
   <= (1 # 8388608) * (60000000 / (inject_Z 500000 * inject_Z 1)))%Q.
Proof.
  assert (Hi : 0 < 500000 < 2 ^ 32) by lia.
  assert (Hp : 0 < 1 < 2 ^ 8) by lia.
  destruct (C3_rpm_is_6e7_over_interval_times_pulses 500000 1 Hi Hp)
    as [(_ & N & E) _].
  split; [exact N | exact E].
Defined.

Lemma speedMpsFromRPM_zero c :
  is_finite c = true ->
  speedMpsFromRPM lit_0f c = S754_zero (fsign c).
Proof.
  destruct c as [s | s | | s m e]; try discriminate; intros _;
    destruct s; reflexivity.
Qed.

(** C4: the estimator returns the zero result whenever a divisor is
    degenerate: with a zero interval, or with a zero magnet count, the rpm is
    [+0] and, for every finite circumference, the speed is a zero (of the
    sign of the circumference, so [+0] for a positive one): no division is
    evaluated. *)
Theorem C4_degenerate_divisor_gives_zero t n c :
  is_finite c = true ->
  rpmFromInterval 0 n = S754_zero false /\
  rpmFromInterval t 0 = S754_zero false /\
  speedMpsFromRPM (rpmFromInterval 0 n) c = S754_zero (fsign c) /\
  speedMpsFromRPM (rpmFromInterval t 0) c = S754_zero (fsign c) /\
  SFeqb (speedMpsFromRPM (rpmFromInterval 0 n) c) (S754_zero false) = true /\
  SFeqb (speedMpsFromRPM (rpmFromInterval t 0) c) (S754_zero false) = true.
Proof.
  intros Hc.
  assert (R0 : rpmFromInterval 0 n = lit_0f) by reflexivity.
  assert (R1 : rpmFromInterval t 0 = lit_0f).
  { unfold rpmFromInterval. cbv zeta. change (u8 0) with 0.
    rewrite orb_true_r. reflexivity. }
  rewrite R0, R1, speedMpsFromRPM_zero by exact Hc.
  repeat split; reflexivity.
Qed.

Lemma C4_witness :
  rpmFromInterval 0 1 = S754_zero false /\
  rpmFromInterval 500000 0 = S754_zero false /\
  speedMpsFromRPM (rpmFromInterval 0 1) lit_0_210f = S754_zero false /\
  speedMpsFromRPM (rpmFromInterval 500000 0) lit_0_210f = S754_zero false.
Proof.
  destruct (C4_degenerate_divisor_gives_zero 500000 1 lit_0_210f)
    as (A & B & C & D & _).
  - reflexivity.
  - repeat split; assumption.
Defined.

(** Outside the calibration domain the product [0 * c] is not a zero: an
    infinite circumference gives NaN. *)
Lemma speedMpsFromRPM_zero_times_infinity :
  speedMpsFromRPM (rpmFromInterval 0 1) (S754_infinity false) = S754_nan.
Proof. reflexivity. Qed.

(** ** Stale and never-fired trackers *)

Local Open Scope Z_scope.

(** Whenever the estimator gets past its guard, the divisor of its division
    is a normal, hence nonzero, double: the exact product of the two
    integers. *)
Lemma rpmFromInterval_divisor_nonzero i p :
  (u32 i =? 0) || (u8 p =? 0) = false ->
  F64.mul (F64.of_Z (u32 i)) (F64.of_Z (u8 p)) = int_float 53 (u32 i * u8 p) /\
  pnormal 53 1024 (F64.mul (F64.of_Z (u32 i)) (F64.of_Z (u8 p))).
Proof.
  intros G. apply orb_false_iff in G. destruct G as [Gi Gp].
  apply Z.eqb_neq in Gi, Gp.
  pose proof (Z.mod_pos_bound i (2 ^ 32) ltac:(lia)) as Bi.
  pose proof (Z.mod_pos_bound p (2 ^ 8) ltac:(lia)) as Bp.
  fold (u32 i) in Bi. fold (u8 p) in Bp.
  assert (P53 : 0 < 53) by lia. assert (E64 : 53 < 1024) by lia.
  assert (HN : 0 < u32 i * u8 p < 2 ^ 40) by nia.
  unfold F64.mul, F64.of_Z, F64.prec, F64.emax.
  rewrite !(binary_normalize_int 53 1024 P53 E64) by lia.
  rewrite (SFmul_int 53 1024 P53 E64) by lia.
  split; [reflexivity|].
  apply (int_float_pnormal 53 1024 P53 E64). lia.
Qed.

(** C2, as the claim words it, fails: 600.999 ms after the last accepted
    edge, more than the 600 ms timeout, the sampler still reports the stored
    interval: the elapsed time is cut to whole milliseconds before it is
    compared. *)
Lemma C2_still_reporting_at_600999_us :
  let snap := {| g_pulseCount := 1; g_lastPulseMicros := micros_at 1000000;
                 g_lastIntervalMicros := 250000 |} in
  NO_PULSE_TIMEOUT_MS stock * 1000 < 1600999 - 1000000 /\
  fst (kinematics stock (micros_at 1600999) snap) = F32.of_Z 240 /\
  kinematics stock (micros_at 1600999) snap <> (lit_0f, lit_0f).
Proof. vm_compute. repeat split. intros H. discriminate H. Qed.

(** C2, amended: on every run of the sampler, if the last accepted edge
    lies at least one whole millisecond more than the timeout back (and
    less than 2^32 microseconds, the period of the counter), or if no edge
    was ever accepted (the tracker is in its startup state), the pair
    computed is exactly (rpm = +0, speed_mps = +0) whatever interval is
    stored, and so are the fields of a sample sent on that run.  No division
    by zero occurs: the estimator is not evaluated on such a run, and
    whenever it is evaluated past its guard its divisor is a nonzero
    double.  [T1] and [T2] are the instants, in microseconds since
    power-up, of the last accepted edge and of the run. *)
Theorem C2_stale_in_true_time_or_never_fired_reports_zero cfg inp snap T1 T2 :
  (g_lastPulseMicros snap = micros_at T1 /\
   in_micros inp = micros_at T2 /\
   (u32 (NO_PULSE_TIMEOUT_MS cfg) + 1) * 1000 <= T2 - T1 < 2 ^ 32)
  \/ snap = startup ->
  kinematics cfg (in_micros inp) snap = (lit_0f, lit_0f) /\
  (forall s s' t, loop cfg inp snap s = (s', Some t) ->
     rpm t = S754_zero false /\ speed_mps t = S754_zero false /\
     speed_kph t = S754_zero false) /\
  (forall i p, (u32 i =? 0) || (u8 p =? 0) = false ->
     pnormal 53 1024 (F64.mul (F64.of_Z (u32 i)) (F64.of_Z (u8 p)))).
Proof.
  intros H.
  assert (K : kinematics cfg (in_micros inp) snap = (lit_0f, lit_0f)).
  { destruct H as [(Hl & Hn & Hs) | ->].
    - pose proof (u32_range (NO_PULSE_TIMEOUT_MS cfg)) as Ht.
      apply kinematics_stale_micros.
      rewrite Hl, Hn. unfold micros_at.
      rewrite u32_idem, wrap_safe_sub by lia. lia.
    - apply kinematics_no_interval. cbn. lia. }
  split; [exact K|]. split.
  - intros s s' t L. apply loop_sample in L. destruct L as [-> _].
    rewrite K. cbn. repeat split.
  - intros i p G. apply rpmFromInterval_divisor_nonzero, G.
Qed.

Lemma C2_true_time_witness :
  kinematics stock 100000
    {| g_pulseCount := 7; g_lastPulseMicros := 4294000000;
       g_lastIntervalMicros := 50000 |} = (lit_0f, lit_0f).
Proof.
  apply (C2_stale_in_true_time_or_never_fired_reports_zero stock
           {| in_millis := 4295067; in_analog := 2048; in_micros := 100000 |}
           {| g_pulseCount := 7; g_lastPulseMicros := 4294000000;
              g_lastIntervalMicros := 50000 |}
           4294000000 4295067296).
  left. split; [reflexivity|]. split; [reflexivity|].
  change (u32 (NO_PULSE_TIMEOUT_MS stock)) with 600. lia.
Defined.

(** ** The derived km/h field *)

Local Open Scope Q_scope.

Lemma pnormal_lit_0_210f : pnormal 24 128 lit_0_210f.
Proof. cbn. split; [reflexivity | lia]. Qed.

Lemma pnormal_lit_60f : pnormal 24 128 lit_60f.
Proof. cbn. split; [reflexivity | lia]. Qed.

Lemma pnormal_lit_3_6f : pnormal 24 128 lit_3_6f.
Proof. cbn. split; [reflexivity | lia]. Qed.

(** The estimator's result lies between [2^-15] and [2^26]. *)
Lemma rpmFromInterval_range i p :
  (0 < i < 2 ^ 32)%Z -> (0 < p < 2 ^ 8)%Z ->
  (1 # 32768) <= SF2Q (rpmFromInterval i p) /\
  SF2Q (rpmFromInterval i p) <= 67108864.
Proof.
  intros Hi Hp. destruct (rpmFromInterval_rel i p Hi Hp) as [_ E].
  change (pow2 23) with 8388608 in E.
  apply rel_error_bounds in E; [|reflexivity]. destruct E as [E1 E2].
  assert (HN : (0 < i * p < 2 ^ 40)%Z) by nia.
  assert (NQ : 1 <= inject_Z i * inject_Z p /\
               inject_Z i * inject_Z p < 1099511627776).
  { rewrite <- inject_Z_mult. split.
    - change 1 with (inject_Z 1). rewrite <- Zle_Qle. lia.
    - change 1099511627776 with (inject_Z (2 ^ 40)). rewrite <- Zlt_Qlt. lia. }
  set (N := inject_Z i * inject_Z p) in *.
  assert (T : (1 # 20000) <= 60000000 / N /\ 60000000 / N <= 60000000).
  { split.
    - apply Qle_shift_div_l; lra.
    - apply Qle_shift_div_r; lra. }
  set (X := 60000000 / N) in *. split; lra.
Qed.

(** With the stock wheel the speed derived from a computed rpm is a normal
    float between [2^-26] and [2^18]. *)
Lemma speedMpsFromRPM_stock_range r :
  pnormal 24 128 r -> (1 # 32768) <= SF2Q r -> SF2Q r <= 67108864 ->
  pnormal 24 128 (speedMpsFromRPM r lit_0_210f) /\
  (1 # 67108864) <= SF2Q (speedMpsFromRPM r lit_0_210f) /\
  SF2Q (speedMpsFromRPM r lit_0_210f) <= 262144.
Proof.
  intros Nr L U. unfold speedMpsFromRPM, F32.mul, F32.div, F32.prec, F32.emax.
  assert (P24 : (0 < 24)%Z) by lia.
  assert (Vc : SF2Q lit_0_210f == 14092861 # 67108864) by reflexivity.
  assert (V60 : SF2Q lit_60f == 60) by reflexivity.
  destruct (SFmul_rel 24 128 P24 r lit_0_210f Nr pnormal_lit_0_210f)
    as [Nm Em].
  { rewrite Vc. above_pow2 (-30)%Z. }
  { rewrite Vc. below_pow2 30%Z. }
  rewrite Vc in Em. set (m := SFmul 24 128 r lit_0_210f) in *.
  change (pow2 24) with 16777216 in Em.
  apply rel_error_bounds in Em; [|reflexivity]. destruct Em as [Em1 Em2].
  assert (D : SF2Q m / SF2Q lit_60f == SF2Q m * (1 # 60)).
  { rewrite V60. field. }
  destruct (SFdiv_rel 24 128 P24 m lit_60f Nm pnormal_lit_60f) as [Nv Ev].
  { rewrite D. above_pow2 (-30)%Z. }
  { rewrite D. below_pow2 30%Z. }
  rewrite D in Ev. set (v := SFdiv 24 128 m lit_60f) in *.
  change (pow2 24) with 16777216 in Ev.
  apply rel_error_bounds in Ev; [|reflexivity]. destruct Ev as [Ev1 Ev2].
  split; [exact Nv|]. split; lra.
Qed.

(** The product by [3.6f] is within relative error [2^-23] of 3.6 times
    the speed. *)
Lemma speed_kph_rel v r h ms :
  pnormal 24 128 v -> (1 # 67108864) <= SF2Q v -> SF2Q v <= 262144 ->
  Qabs (SF2Q (speed_kph (package v r h ms)) - (36 # 10) * SF2Q v)
    <= (1 # 8388608) * ((36 # 10) * SF2Q v).
Proof.
  intros Nv L U. cbn [package speed_kph].
  unfold F32.mul, F32.prec, F32.emax.
  assert (P24 : (0 < 24)%Z) by lia.
  assert (Vc : SF2Q lit_3_6f == 15099494 # 4194304) by reflexivity.
  destruct (SFmul_rel 24 128 P24 v lit_3_6f Nv pnormal_lit_3_6f) as [_ Ek].
  { rewrite Vc. above_pow2 (-30)%Z. }
  { rewrite Vc. below_pow2 30%Z. }
  rewrite Vc in Ek. set (k := SFmul 24 128 v lit_3_6f) in *.
  change (pow2 24) with 16777216 in Ek.
  apply rel_error_bounds in Ek; [|reflexivity]. destruct Ek as [Ek1 Ek2].
  apply Qabs_Qle_condition. split; lra.
Qed.

Lemma kinematics_stock_cases micros snap :
  kinematics stock micros snap = (lit_0f, lit_0f) \/
  (pnormal 24 128 (snd (kinematics stock micros snap)) /\
   (1 # 67108864) <= SF2Q (snd (kinematics stock micros snap)) /\
   SF2Q (snd (kinematics stock micros snap)) <= 262144).
Proof.
  unfold kinematics. destruct (_ && _) eqn:G; [|left; reflexivity].
  apply andb_true_iff in G. destruct G as [_ G]. apply Z.ltb_lt in G.
  cbn [fst snd stock MAGNETS_PER_REV WHEEL_CIRCUMFERENCE_M].
  set (i := g_lastIntervalMicros snap) in *.
  destruct (Z.eq_dec (u32 i) 0) as [Zi | Ni].
  - left. unfold rpmFromInterval. rewrite Zi. reflexivity.
  - right. rewrite rpmFromInterval_wrap.
    pose proof (Z.mod_pos_bound i (2 ^ 32) ltac:(lia)) as Bi.
    fold (u32 i) in Bi. change (u8 1) with 1%Z.
    assert (Hi : (0 < u32 i < 2 ^ 32)%Z) by lia.
    assert (Hp : (0 < 1 < 2 ^ 8)%Z) by lia.
    destruct (rpmFromInterval_rel (u32 i) 1 Hi Hp) as [Nr _].
    destruct (rpmFromInterval_range (u32 i) 1 Hi Hp) as [L U].
    apply speedMpsFromRPM_stock_range; assumption.
Qed.

Local Open Scope Z_scope.

(** C7: in every sample produced, [speed_kph] is the float product of the
    [speed_mps] placed in the same sample and the constant [3.6f] (the float
    nearest 3.6): it is derived when the record is assembled and is not
    stored anywhere else.  With the stock calibration the product is within
    relative error [2^-23] of 3.6 times the speed in every sample. *)
Theorem C7_kph_is_mps_times_3_6 cfg inp snap s s' t :
  loop cfg inp snap s = (s', Some t) ->
  speed_kph t = F32.mul (speed_mps t) lit_3_6f /\
  lit_3_6f = F32.of_decimal 36 10 /\
  speed_mps t = snd (kinematics cfg (in_micros inp) snap) /\
  speed_kph (tx s') = F32.mul (speed_mps (tx s')) lit_3_6f /\
  (cfg = stock ->
   (Qabs (SF2Q (speed_kph t) - (36 # 10) * SF2Q (speed_mps t))
    <= (1 # 8388608) * ((36 # 10) * SF2Q (speed_mps t)))%Q).
Proof.
  intros L. apply loop_sample in L. destruct L as (-> & -> & _).
  cbn [package speed_kph speed_mps tx].
  repeat split. intros ->.
  destruct (kinematics_stock_cases (in_micros inp) snap) as [-> | (N & Lo & Hi)].
  - vm_compute. discriminate.
  - apply (speed_kph_rel _ (fst (kinematics stock (in_micros inp) snap)) 0 0
             N Lo Hi).
Qed.

Lemma C7_witness :
  exists s' t,
    loop stock {| in_millis := 1600; in_analog := 2048; in_micros := 1600000 |}
         {| g_pulseCount := 3; g_lastPulseMicros := 1500000;
            g_lastIntervalMicros := 500000 |} sampler0 = (s', Some t) /\
    speed_kph t = F32.mul (speed_mps t) lit_3_6f /\
    (Qabs (SF2Q (speed_kph t) - (36 # 10) * SF2Q (speed_mps t))
     <= (1 # 8388608) * ((36 # 10) * SF2Q (speed_mps t)))%Q.
Proof.
  eexists. eexists. split.
  - vm_compute. reflexivity.
  - destruct (C7_kph_is_mps_times_3_6 stock
             {| in_millis := 1600; in_analog := 2048; in_micros := 1600000 |}
             {| g_pulseCount := 3; g_lastPulseMicros := 1500000;
                g_lastIntervalMicros := 500000 |} sampler0
             {| lastSendMs := 1600;
                tx := package (S754_finite false 14092861 (-25))
                              (S754_finite false 15728640 (-17)) 2048 1600 |}
             (package (S754_finite false 14092861 (-25))
                      (S754_finite false 15728640 (-17)) 2048 1600))
      as (A & _ & _ & _ & B).
    + vm_compute. reflexivity.
    + split; [exact A | apply B; reflexivity].
Defined.

(** C10: every sample the sampler produces has nonnegative kinematic
    fields, whatever the tracker state, the clock readings and the
    calibration, provided the wheel circumference is a positive finite
    float: rpm, speed_mps and speed_kph all compare [>= 0] (none is NaN or
    negative). *)
Theorem C10_kinematic_fields_are_nonnegative cfg inp snap s s' t :
  fgt0 (WHEEL_CIRCUMFERENCE_M cfg) = true ->
  is_finite (WHEEL_CIRCUMFERENCE_M cfg) = true ->
  loop cfg inp snap s = (s', Some t) ->
  fge0 (rpm t) = true /\ fge0 (speed_mps t) = true /\
  fge0 (speed_kph t) = true.
Proof.
  intros Hpos Hfin L. apply loop_sample in L. destruct L as (-> & _).
  destruct (kinematics_fpos_class cfg (in_micros inp) snap Hpos Hfin)
    as [R V].
  cbn [package rpm speed_mps speed_kph].
  repeat split; apply fpos_class_fge0; try assumption.
  unfold F32.mul, lit_3_6f. apply SFmul_pos_class, V.
Qed.

Lemma C10_witness :
  let t := package (S754_finite false 14092861 (-25))
                   (S754_finite false 15728640 (-17)) 2048 1600 in
  fge0 (rpm t) = true /\ fge0 (speed_mps t) = true /\
  fge0 (speed_kph t) = true.
Proof.
  apply (C10_kinematic_fields_are_nonnegative stock
           {| in_millis := 1600; in_analog := 2048; in_micros := 1600000 |}
           {| g_pulseCount := 3; g_lastPulseMicros := 1500000;
              g_lastIntervalMicros := 500000 |} sampler0
           {| lastSendMs := 1600;
              tx := package (S754_finite false 14092861 (-25))
                            (S754_finite false 15728640 (-17)) 2048 1600 |}).
  - reflexivity.
  - reflexivity.
  - vm_compute. reflexivity.
Defined.

(** * Further properties of the firmware *)

(** ** Trains of edges *)

Lemma run_edges_app cfg es1 es2 t :
  run_edges cfg (es1 ++ es2) t = run_edges cfg es2 (run_edges cfg es1 t).
Proof. unfold run_edges. apply fold_left_app. Qed.

(** What every edge preserves: the fields stay in range, the count grows
    by at most one per edge, and a stored interval is never below the
    debounce floor. *)
Lemma run_edges_inv cfg es t :
  tracker_ok t ->
  (t = startup \/ u32 (MIN_PULSE_GAP_US cfg) <= g_lastIntervalMicros t) ->
  tracker_ok (run_edges cfg es t) /\
  (run_edges cfg es t = startup \/
   u32 (MIN_PULSE_GAP_US cfg) <= g_lastIntervalMicros (run_edges cfg es t)) /\
  g_pulseCount (run_edges cfg es t) <= g_pulseCount t + Z.of_nat (length es).
Proof.
  revert t. induction es as [| e es IH]; intros t Hok Hfl.
  - cbn [run_edges fold_left length]. split; [exact Hok|].
    split; [exact Hfl | lia].
  - change (run_edges cfg (e :: es) t)
      with (run_edges cfg es (isr_ky024 cfg e t)).
    assert (Hok' : tracker_ok (isr_ky024 cfg e t)) by (apply isr_ky024_ok, Hok).
    assert (Hfl' : isr_ky024 cfg e t = startup \/
                   u32 (MIN_PULSE_GAP_US cfg)
                     <= g_lastIntervalMicros (isr_ky024 cfg e t)).
    { unfold isr_ky024. destruct (Z.leb_spec (u32 (MIN_PULSE_GAP_US cfg))
                                   (sub32 (u32 e) (g_lastPulseMicros t))).
      - right. exact H.
      - exact Hfl. }
    assert (Hc : g_pulseCount (isr_ky024 cfg e t) <= g_pulseCount t + 1).
    { unfold isr_ky024. destruct (_ <=? _); cbn [g_pulseCount]; [|lia].
      destruct Hok as [Hc _]. unfold add32, u32.
      pose proof (Z.mod_le (g_pulseCount t + 1) (2 ^ 32)). lia. }
    destruct (IH _ Hok' Hfl') as (A & B & C).
    split; [exact A|]. split; [exact B|].
    rewrite length_cons, Nat2Z.inj_succ. lia.
Qed.

(** X1: whatever train of pin changes the handler has served since
    power-up, the three tracker fields are within [uint32_t], the count does
    not exceed the number of pin changes, and either no edge was accepted
    yet (the tracker is as at startup) or the stored interval is at least
    the debounce floor: no interval shorter than the floor is ever
    recorded. *)
Theorem X1_tracker_invariants cfg es :
  let t := run_edges cfg es startup in
  tracker_ok t /\
  (t = startup \/ u32 (MIN_PULSE_GAP_US cfg) <= g_lastIntervalMicros t) /\
  g_pulseCount t <= Z.of_nat (length es).
Proof.
  destruct (run_edges_inv cfg es startup startup_ok (or_introl eq_refl))
    as (A & B & C).
  cbn zeta. split; [exact A|]. split; [exact B | exact C].
Qed.

(** ** The handler against a clock that never wraps *)

Lemma add32_u32_l c : add32 (u32 c) 1 = u32 (c + 1).
Proof. unfold add32, u32. apply Zplus_mod_idemp_l. Qed.

Lemma isr_ky024_refines cfg T t :
  0 <= T - g_lastPulseMicros t < 2 ^ 32 ->
  isr_ky024 cfg (micros_at T) (wrapped t) = wrapped (isr_unbounded cfg T t).
Proof.
  intros Hg. unfold isr_ky024, isr_unbounded, micros_at.
  cbn [wrapped g_lastPulseMicros g_pulseCount g_lastIntervalMicros].
  rewrite u32_idem, wrap_safe_sub by lia.
  destruct (_ <=? _); [|reflexivity].
  unfold wrapped. cbn [g_lastPulseMicros g_pulseCount g_lastIntervalMicros].
  rewrite add32_u32_l, (u32_small (T - g_lastPulseMicros t)) by lia.
  reflexivity.
Qed.

Lemma run_edges_refines cfg Ts : forall t Tprev,
  g_lastPulseMicros t <= Tprev ->
  (g_lastPulseMicros t = Tprev \/
   Tprev - g_lastPulseMicros t < u32 (MIN_PULSE_GAP_US cfg)) ->
  well_spaced (2 ^ 32 - u32 (MIN_PULSE_GAP_US cfg)) Tprev Ts = true ->
  run_edges cfg (map micros_at Ts) (wrapped t)
    = wrapped (run_unbounded cfg Ts t).
Proof.
  induction Ts as [| T Ts IH]; intros t Tprev Hle Hnear Hsp.
  - reflexivity.
  - cbn [well_spaced] in Hsp.
    apply andb_true_iff in Hsp. destruct Hsp as [Hsp Hrest].
    apply andb_true_iff in Hsp. destruct Hsp as [H1 H2].
    apply Z.leb_le in H1. apply Z.ltb_lt in H2.
    pose proof (u32_range (MIN_PULSE_GAP_US cfg)) as HF.
    change (run_edges cfg (map micros_at (T :: Ts)) (wrapped t))
      with (run_edges cfg (map micros_at Ts)
              (isr_ky024 cfg (micros_at T) (wrapped t))).
    change (run_unbounded cfg (T :: Ts) t)
      with (run_unbounded cfg Ts (isr_unbounded cfg T t)).
    rewrite isr_ky024_refines by lia.
    apply (IH _ T); [| | exact Hrest].
    + unfold isr_unbounded. destruct (_ <=? _); cbn [g_lastPulseMicros]; lia.
    + unfold isr_unbounded.
      destruct (Z.leb_spec (u32 (MIN_PULSE_GAP_US cfg))
                           (T - g_lastPulseMicros t));
        cbn [g_lastPulseMicros]; [left; reflexivity | right; lia].
Qed.

Lemma last_cons {A} (a : A) l d : last (a :: l) d = last l a.
Proof.
  revert a d. induction l as [| b l IH]; intros a d; [reflexivity|].
  change (last (a :: b :: l) d) with (last (b :: l) d).
  rewrite !IH. reflexivity.
Qed.

(** On the clock that never wraps, the handler keeps the number of accepted
    edges, the instant of the last one and its distance to the one
    before. *)
Lemma run_unbounded_accepted cfg Ts : forall t,
  let acc := accepted_from (u32 (MIN_PULSE_GAP_US cfg))
                           (g_lastPulseMicros t) Ts in
  g_pulseCount (run_unbounded cfg Ts t)
    = g_pulseCount t + Z.of_nat (length acc) /\
  g_lastPulseMicros (run_unbounded cfg Ts t)
    = last acc (g_lastPulseMicros t) /\
  g_lastIntervalMicros (run_unbounded cfg Ts t)
    = match acc with
      | [] => g_lastIntervalMicros t
      | _ :: _ => last acc (g_lastPulseMicros t)
                  - last (removelast acc) (g_lastPulseMicros t)
      end.
Proof.
  induction Ts as [| T Ts IH]; intros t acc.
  - subst acc. cbn. repeat split; lia.
  - change (run_unbounded cfg (T :: Ts) t)
      with (run_unbounded cfg Ts (isr_unbounded cfg T t)).
    subst acc. cbn [accepted_from]. unfold isr_unbounded.
    destruct (u32 (MIN_PULSE_GAP_US cfg) <=? T - g_lastPulseMicros t).
    + match goal with |- context [run_unbounded cfg Ts ?t1] =>
        destruct (IH t1) as (A & B & C) end.
      cbn [g_pulseCount g_lastPulseMicros g_lastIntervalMicros] in A, B, C.
      rewrite A, B, C. clear A B C.
      set (acc' := accepted_from (u32 (MIN_PULSE_GAP_US cfg)) T Ts).
      split; [rewrite length_cons, Nat2Z.inj_succ; lia|].
      split; [rewrite last_cons; reflexivity|].
      destruct acc' as [| a r]; [reflexivity|].
      change (removelast (T :: a :: r)) with (T :: removelast (a :: r)).
      rewrite !last_cons. reflexivity.
    + apply IH.
Qed.

Lemma run_unbounded_interval_range cfg Ts : forall t Tprev,
  g_lastPulseMicros t <= Tprev ->
  (g_lastPulseMicros t = Tprev \/
   Tprev - g_lastPulseMicros t < u32 (MIN_PULSE_GAP_US cfg)) ->
  0 <= g_lastIntervalMicros t < 2 ^ 32 ->
  well_spaced (2 ^ 32 - u32 (MIN_PULSE_GAP_US cfg)) Tprev Ts = true ->
  0 <= g_lastIntervalMicros (run_unbounded cfg Ts t) < 2 ^ 32.
Proof.
  induction Ts as [| T Ts IH]; intros t Tprev Hle Hnear Hi Hsp.
  - exact Hi.
  - cbn [well_spaced] in Hsp.
    apply andb_true_iff in Hsp. destruct Hsp as [Hsp Hrest].
    apply andb_true_iff in Hsp. destruct Hsp as [H1 H2].
    apply Z.leb_le in H1. apply Z.ltb_lt in H2.
    pose proof (u32_range (MIN_PULSE_GAP_US cfg)) as HF.
    change (run_unbounded cfg (T :: Ts) t)
      with (run_unbounded cfg Ts (isr_unbounded cfg T t)).
    apply (IH _ T); [| | | exact Hrest]; unfold isr_unbounded;
      destruct (Z.leb_spec (u32 (MIN_PULSE_GAP_US cfg))
                           (T - g_lastPulseMicros t));
      cbn [g_lastPulseMicros g_lastIntervalMicros]; lia.
Qed.

(** X2: on a train of pin changes at the instants [Ts] after power-up, each
    less than [2^32 - floor] microseconds after the one before, the handler
    reading the wrapping 32-bit counter accepts exactly the edges a debounce
    on a clock that never wraps accepts (the first edge at least the floor
    after power-up, then every edge at least the floor after the last
    accepted one).  It holds their number modulo 2^32, the counter reading
    at the last accepted edge, and as interval the true time from the
    accepted edge before it to the last one, or from power-up to that edge
    when it is the only one accepted; it is the 32-bit image of what the
    same statements keep on the unwrapped clock. *)
Theorem X2_handler_tracks_accepted_edges cfg Ts :
  well_spaced (2 ^ 32 - u32 (MIN_PULSE_GAP_US cfg)) 0 Ts = true ->
  let acc := accepted_from (u32 (MIN_PULSE_GAP_US cfg)) 0 Ts in
  run_edges cfg (map micros_at Ts) startup = tracker_after acc /\
  run_edges cfg (map micros_at Ts) startup
    = wrapped (run_unbounded cfg Ts startup).
Proof.
  intros Hsp acc.
  assert (E : run_edges cfg (map micros_at Ts) startup
              = wrapped (run_unbounded cfg Ts startup)).
  { change startup with (wrapped startup) at 1.
    apply (run_edges_refines cfg Ts startup 0);
      [cbn; lia | left; reflexivity | exact Hsp]. }
  split; [|exact E].
  rewrite E.
  destruct (run_unbounded_accepted cfg Ts startup) as (A & B & C).
  cbn [startup g_pulseCount g_lastPulseMicros g_lastIntervalMicros] in A, B, C.
  fold acc in A, B, C.
  assert (R : 0 <= g_lastIntervalMicros (run_unbounded cfg Ts startup) < 2 ^ 32).
  { apply (run_unbounded_interval_range cfg Ts startup 0);
      [cbn; lia | left; reflexivity | cbn; lia | exact Hsp]. }
  unfold wrapped, tracker_after.
  rewrite A, B, (u32_small _ R), C. reflexivity.
Qed.

Lemma X2_witness :
  run_edges stock (map micros_at [4294960000; 4294961000; 4294970000]) startup
    = {| g_pulseCount := 2; g_lastPulseMicros := 2704;
         g_lastIntervalMicros := 10000 |} /\
  run_edges stock (map micros_at [1000000; 1000500]) startup
    = {| g_pulseCount := 1; g_lastPulseMicros := 1000000;
         g_lastIntervalMicros := 1000000 |}.
Proof.
  split.
  - destruct (X2_handler_tracks_accepted_edges stock
                [4294960000; 4294961000; 4294970000]) as [A _].
    + vm_compute. reflexivity.
    + rewrite A. vm_compute. reflexivity.
  - destruct (X2_handler_tracks_accepted_edges stock [1000000; 1000500])
      as [A _].
    + vm_compute. reflexivity.
    + rewrite A. vm_compute. reflexivity.
Defined.

(** ** What the stock sampler reports *)

Lemma kinematics_stock_fresh micros snap :
  sinceLastPulseMs micros (g_lastPulseMicros snap) <= 600 ->
  0 < g_lastIntervalMicros snap ->
  kinematics stock micros snap
    = (rpmFromInterval (g_lastIntervalMicros snap) 1,
       speedMpsFromRPM (rpmFromInterval (g_lastIntervalMicros snap) 1)
                       lit_0_210f).
Proof.
  intros He Hi. unfold kinematics.
  cbn [stock NO_PULSE_TIMEOUT_MS MAGNETS_PER_REV WHEEL_CIRCUMFERENCE_M].
  change (u32 600) with 600.
  apply Z.leb_le in He. apply Z.ltb_lt in Hi. rewrite He, Hi. reflexivity.
Qed.

Local Open Scope Q_scope.

(** With the stock wheel, the speed computed from an interval of [i]
    microseconds is within relative error [2^-21] of [0.21 m] per [i]
    microseconds, that is of [210000 / i] metres per second. *)
Lemma speed_stock_rel i :
  (0 < i < 2 ^ 32)%Z ->
  pnormal 24 128 (speedMpsFromRPM (rpmFromInterval i 1) lit_0_210f) /\
  Qabs (SF2Q (speedMpsFromRPM (rpmFromInterval i 1) lit_0_210f)
        - 210000 / inject_Z i) * pow2 21 <= 210000 / inject_Z i.
Proof.
  intros Hi. assert (Hp : (0 < 1 < 2 ^ 8)%Z) by lia.
  destruct (rpmFromInterval_rel i 1 Hi Hp) as [Nr Er].
  destruct (rpmFromInterval_range i 1 Hi Hp) as [Lr Ur].
  set (r := rpmFromInterval i 1) in *.
  assert (Iq : 1 <= inject_Z i).
  { change 1 with (inject_Z 1). rewrite <- Zle_Qle. lia. }
  assert (ET : 60000000 / (inject_Z i * inject_Z 1)
               == (2000 # 7) * (210000 / inject_Z i)).
  { change (inject_Z 1) with 1. field. lra. }
  rewrite ET in Er.
  assert (Upos : 0 < 210000 / inject_Z i) by (apply Qlt_shift_div_l; lra).
  set (U := 210000 / inject_Z i) in *.
  change (pow2 23) with 8388608 in Er.
  apply rel_error_bounds in Er; [|reflexivity]. destruct Er as [Er1 Er2].
  unfold speedMpsFromRPM, F32.mul, F32.div, F32.prec, F32.emax.
  assert (P24 : (0 < 24)%Z) by lia.
  assert (Vc : SF2Q lit_0_210f == 14092861 # 67108864) by reflexivity.
  assert (V60 : SF2Q lit_60f == 60) by reflexivity.
  destruct (SFmul_rel 24 128 P24 r lit_0_210f Nr pnormal_lit_0_210f)
    as [Nm Em].
  { rewrite Vc. above_pow2 (-30)%Z. }
  { rewrite Vc. below_pow2 30%Z. }
  rewrite Vc in Em. set (m := SFmul 24 128 r lit_0_210f) in *.
  change (pow2 24) with 16777216 in Em.
  apply rel_error_bounds in Em; [|reflexivity]. destruct Em as [Em1 Em2].
  assert (D : SF2Q m / SF2Q lit_60f == SF2Q m * (1 # 60)).
  { rewrite V60. field. }
  destruct (SFdiv_rel 24 128 P24 m lit_60f Nm pnormal_lit_60f) as [Nv Ev].
  { rewrite D. above_pow2 (-30)%Z. }
  { rewrite D. below_pow2 30%Z. }
  rewrite D in Ev. set (v := SFdiv 24 128 m lit_60f) in *.
  change (pow2 24) with 16777216 in Ev.
  apply rel_error_bounds in Ev; [|reflexivity]. destruct Ev as [Ev1 Ev2].
  split; [exact Nv|].
  change (pow2 21) with 2097152.
  apply rel_error_intro; [reflexivity | lra | lra].
Qed.

Local Open Scope Z_scope.

Lemma pnormal_fgt0 x : pnormal 24 128 x -> fgt0 x = true.
Proof. destruct x as [[] | [] | | [] m e]; cbn; tauto. Qed.

Lemma pnormal_not_zero x : pnormal 24 128 x -> x <> lit_0f.
Proof. destruct x as [[] | [] | | [] m e]; cbn; try tauto; discriminate. Qed.

(** X3: with the stock calibration the sampler computes zero exactly when it
    must: the pair (rpm, speed_mps) is (+0, +0) if and only if the last
    pulse is older than the timeout or no interval is stored; in every
    other case both are strictly positive. *)
Theorem X3_stock_zero_iff_stale_or_no_interval micros snap :
  tracker_ok snap ->
  (kinematics stock micros snap = (lit_0f, lit_0f) <->
   600 < sinceLastPulseMs micros (g_lastPulseMicros snap) \/
   g_lastIntervalMicros snap = 0) /\
  (sinceLastPulseMs micros (g_lastPulseMicros snap) <= 600 ->
   g_lastIntervalMicros snap <> 0 ->
   fgt0 (fst (kinematics stock micros snap)) = true /\
   fgt0 (snd (kinematics stock micros snap)) = true).
Proof.
  intros (_ & _ & Hi).
  assert (F : sinceLastPulseMs micros (g_lastPulseMicros snap) <= 600 ->
              g_lastIntervalMicros snap <> 0 ->
              pnormal 24 128 (fst (kinematics stock micros snap)) /\
              pnormal 24 128 (snd (kinematics stock micros snap))).
  { intros He Hn. rewrite kinematics_stock_fresh by lia. cbn [fst snd].
    split.
    - apply rpmFromInterval_rel; lia.
    - apply speed_stock_rel. lia. }
  split; [split|].
  - intros K.
    destruct (Z_le_gt_dec (sinceLastPulseMs micros (g_lastPulseMicros snap)) 600)
      as [He | He]; [|left; lia].
    destruct (Z.eq_dec (g_lastIntervalMicros snap) 0) as [Hz | Hn];
      [right; exact Hz|].
    exfalso. destruct (F He Hn) as [N _]. rewrite K in N. exact N.
  - intros [He | Hz].
    + apply kinematics_stale. exact He.
    + apply kinematics_no_interval. lia.
  - intros He Hn. destruct (F He Hn) as [N1 N2].
    split; apply pnormal_fgt0; assumption.
Qed.

Lemma X3_witness :
  fgt0 (fst (kinematics stock 600000
               {| g_pulseCount := 1; g_lastPulseMicros := 500000;
                  g_lastIntervalMicros := 500000 |})) = true /\
  fgt0 (snd (kinematics stock 600000
               {| g_pulseCount := 1; g_lastPulseMicros := 500000;
                  g_lastIntervalMicros := 500000 |})) = true.
Proof.
  destruct (X3_stock_zero_iff_stale_or_no_interval 600000
              {| g_pulseCount := 1; g_lastPulseMicros := 500000;
                 g_lastIntervalMicros := 500000 |}) as [_ P].
  - unfold tracker_ok. cbn. lia.
  - apply P; [vm_compute; discriminate | cbn; lia].
Defined.

(** The three fields against the interval they are computed from. *)
Lemma kinematics_stock_rel micros snap :
  tracker_ok snap ->
  sinceLastPulseMs micros (g_lastPulseMicros snap) <= 600 ->
  g_lastIntervalMicros snap <> 0 ->
  let i := inject_Z (g_lastIntervalMicros snap) in
  let k := kinematics stock micros snap in
  (Qabs (SF2Q (fst k) - 60000000 / i) <= (1 # 8388608) * (60000000 / i) /\
   Qabs (SF2Q (snd k) - 210000 / i) <= (1 # 2097152) * (210000 / i) /\
   Qabs (SF2Q (speed_kph (package (snd k) (fst k) 0 0)) - 756000 / i)
     <= (1 # 1048576) * (756000 / i))%Q.
Proof.
  intros (_ & _ & Hi) He Hn i k. subst k.
  rewrite kinematics_stock_fresh by lia. cbn [fst snd].
  assert (Hr : 0 < g_lastIntervalMicros snap < 2 ^ 32) by lia.
  assert (Hp : 0 < 1 < 2 ^ 8) by lia.
  destruct (rpmFromInterval_rel _ 1 Hr Hp) as [Nr Er].
  destruct (rpmFromInterval_range _ 1 Hr Hp) as [Lr Ur].
  destruct (speed_stock_rel _ Hr) as [Nv Ev].
  destruct (speedMpsFromRPM_stock_range _ Nr Lr Ur) as (_ & Lv & Uv).
  pose proof (speed_kph_rel _ (rpmFromInterval (g_lastIntervalMicros snap) 1)
                0 0 Nv Lv Uv) as Ek.
  fold i in Er, Ev.
  assert (Iq : (1 <= i)%Q).
  { subst i. change 1%Q with (inject_Z 1). rewrite <- Zle_Qle. lia. }
  assert (E1 : (60000000 / (i * inject_Z 1) == 60000000 / i)%Q).
  { change (inject_Z 1) with 1%Q. field. lra. }
  rewrite E1 in Er.
  assert (E2 : (756000 / i == (36 # 10) * (210000 / i))%Q) by (field; lra).
  assert (Upos : (0 < 210000 / i)%Q) by (apply Qlt_shift_div_l; lra).
  assert (Tpos : (0 < 60000000 / i)%Q) by (apply Qlt_shift_div_l; lra).
  change (pow2 23) with 8388608%Q in Er.
  change (pow2 21) with 2097152%Q in Ev.
  set (R := SF2Q (rpmFromInterval (g_lastIntervalMicros snap) 1)) in *.
  set (v := speedMpsFromRPM (rpmFromInterval (g_lastIntervalMicros snap) 1)
                            lit_0_210f) in *.
  set (K := SF2Q (speed_kph (package v (rpmFromInterval
                                          (g_lastIntervalMicros snap) 1) 0 0)))
    in *.
  set (T := (60000000 / i)%Q) in *. set (U := (210000 / i)%Q) in *.
  apply rel_error_bounds in Ev; [|reflexivity]. destruct Ev as [Ev1 Ev2].
  apply Qabs_Qle_condition in Ek. destruct Ek as [Ek1 Ek2].
  split; [|split].
  - set (A := Qabs (R - T)) in *. lra.
  - apply Qabs_Qle_condition. split; lra.
  - rewrite E2. apply Qabs_Qle_condition. split; lra.
Qed.

(** X4: with the stock calibration, whenever the sampler computes from a
    stored interval of [i] microseconds (the last pulse recent, [i]
    nonzero), rpm is within relative error [2^-23] of [6e7 / i], speed_mps
    within [2^-21] of [210000 / i] (the 0.21 m circumference per interval)
    and the speed_kph packaged from it within [2^-20] of [756000 / i]. *)
Theorem X4_stock_speed_is_circumference_over_interval micros snap :
  tracker_ok snap ->
  sinceLastPulseMs micros (g_lastPulseMicros snap) <= 600 ->
  g_lastIntervalMicros snap <> 0 ->
  let i := inject_Z (g_lastIntervalMicros snap) in
  let k := kinematics stock micros snap in
  (Qabs (SF2Q (fst k) - 60000000 / i) <= (1 # 8388608) * (60000000 / i) /\
   Qabs (SF2Q (snd k) - 210000 / i) <= (1 # 2097152) * (210000 / i) /\
   Qabs (SF2Q (speed_kph (package (snd k) (fst k) 0 0)) - 756000 / i)
     <= (1 # 1048576) * (756000 / i))%Q.
Proof. exact (kinematics_stock_rel micros snap). Qed.

Lemma X4_witness :
  let k := kinematics stock 600000
             {| g_pulseCount := 1; g_lastPulseMicros := 500000;
                g_lastIntervalMicros := 250000 |} in
  (Qabs (SF2Q (snd k) - 210000 / inject_Z 250000)
   <= (1 # 2097152) * (210000 / inject_Z 250000))%Q.
Proof.
  apply (X4_stock_speed_is_circumference_over_interval 600000
           {| g_pulseCount := 1; g_lastPulseMicros := 500000;
              g_lastIntervalMicros := 250000 |}).
  - unfold tracker_ok. cbn. lia.
  - vm_compute. discriminate.
  - cbn. lia.
Defined.

Lemma pnormal_is_finite prec emax x : pnormal prec emax x -> is_finite x = true.
Proof. destruct x as [[] | [] | | [] m e]; cbn; tauto. Qed.

(** X5: the debounce floor caps what the stock firmware can report.
    Whatever pin changes were served since power-up and whenever the sampler
    runs, the rpm and the speed computed are finite floats (neither NaN nor
    an infinity), the rpm at most 30,001 (an interval is never below 2000
    microseconds) and the speed at most 106 metres per second. *)
Theorem X5_stock_reports_are_finite_and_capped_by_the_floor es micros :
  let k := kinematics stock micros (run_edges stock es startup) in
  is_finite (fst k) = true /\ is_finite (snd k) = true /\
  zero_or_pnormal (fst k) /\ zero_or_pnormal (snd k) /\
  (SF2Q (fst k) <= 30001 /\ SF2Q (snd k) <= 106)%Q.
Proof.
  cbn zeta.
  destruct (run_edges_inv stock es startup startup_ok (or_introl eq_refl))
    as (Hok & Hfl & _).
  set (t := run_edges stock es startup) in *.
  assert (Z0 : forall k, k = (lit_0f, lit_0f) ->
               is_finite (fst k) = true /\ is_finite (snd k) = true /\
               zero_or_pnormal (fst k) /\ zero_or_pnormal (snd k) /\
               (SF2Q (fst k) <= 30001 /\ SF2Q (snd k) <= 106)%Q).
  { intros k ->. cbn [fst snd].
    split; [reflexivity|]. split; [reflexivity|].
    split; [left; reflexivity|]. split; [left; reflexivity|].
    cbn. split; discriminate. }
  destruct (Z_le_gt_dec (sinceLastPulseMs micros (g_lastPulseMicros t)) 600)
    as [He | He]; [|apply Z0, kinematics_stale; cbn; lia].
  destruct (Z.eq_dec (g_lastIntervalMicros t) 0) as [Hz | Hn];
    [apply Z0, kinematics_no_interval; lia|].
  clear Z0.
  destruct Hfl as [Hs | Hfl]; [rewrite Hs in Hn; cbn in Hn; lia|].
  change (u32 (MIN_PULSE_GAP_US stock)) with 2000 in Hfl.
  destruct (kinematics_stock_rel micros t Hok He Hn) as (E1 & E2 & _).
  assert (N : pnormal 24 128 (fst (kinematics stock micros t)) /\
              pnormal 24 128 (snd (kinematics stock micros t))).
  { destruct Hok as (_ & _ & Hi).
    rewrite kinematics_stock_fresh by lia. cbn [fst snd]. split.
    - apply rpmFromInterval_rel; lia.
    - apply speed_stock_rel. lia. }
  destruct N as [N1 N2].
  set (k := kinematics stock micros t) in *.
  split; [apply (pnormal_is_finite 24 128), N1|].
  split; [apply (pnormal_is_finite 24 128), N2|].
  split; [right; exact N1|]. split; [right; exact N2|].
  assert (Iq : (2000 <= inject_Z (g_lastIntervalMicros t))%Q).
  { change 2000%Q with (inject_Z 2000). rewrite <- Zle_Qle. exact Hfl. }
  set (i := inject_Z (g_lastIntervalMicros t)) in *.
  assert (T : (0 < 60000000 / i /\ 60000000 / i <= 30000)%Q).
  { split; [apply Qlt_shift_div_l; lra | apply Qle_shift_div_r; lra]. }
  assert (U : (0 < 210000 / i /\ 210000 / i <= 105)%Q).
  { split; [apply Qlt_shift_div_l; lra | apply Qle_shift_div_r; lra]. }
  apply Qabs_Qle_condition in E1. apply Qabs_Qle_condition in E2.
  set (T0 := (60000000 / i)%Q) in *. set (U0 := (210000 / i)%Q) in *.
  split; lra.
Qed.

(** X6: an accepted edge is reported at the speed of its gap.  With the
    stock calibration, if the last accepted edge was at [T0] and an edge
    arrives at [T1], at least 2000 and less than 2^32 microseconds later,
    the handler stores the gap [T1 - T0], also across a wrap of the counter;
    a sampler run up to 600,999 microseconds after [T1] then reports rpm
    within [2^-23] of [6e7 / (T1 - T0)] and speed within [2^-21] of
    [210000 / (T1 - T0)], and a run from 601,000 microseconds on reports
    zero. *)
Theorem X6_accepted_edge_is_reported_then_times_out t T0 T1 T2 :
  tracker_ok t -> g_lastPulseMicros t = micros_at T0 ->
  2000 <= T1 - T0 < 2 ^ 32 -> T1 <= T2 -> T2 - T1 < 2 ^ 32 ->
  let t' := isr_ky024 stock (micros_at T1) t in
  let k := kinematics stock (micros_at T2) t' in
  let g := inject_Z (T1 - T0) in
  g_lastIntervalMicros t' = T1 - T0 /\
  (T2 - T1 <= 600999 ->
   (Qabs (SF2Q (fst k) - 60000000 / g) <= (1 # 8388608) * (60000000 / g) /\
    Qabs (SF2Q (snd k) - 210000 / g) <= (1 # 2097152) * (210000 / g))%Q) /\
  (601000 <= T2 - T1 -> k = (lit_0f, lit_0f)).
Proof.
  intros Hok Hl Hg H12 H2 t' k g.
  assert (Et : t' = {| g_pulseCount := add32 (g_pulseCount t) 1;
                       g_lastPulseMicros := u32 T1;
                       g_lastIntervalMicros := T1 - T0 |}).
  { subst t'. unfold isr_ky024, micros_at in *.
    rewrite Hl, u32_idem, wrap_safe_sub by lia.
    change (u32 (MIN_PULSE_GAP_US stock)) with 2000.
    destruct (Z.leb_spec 2000 (T1 - T0)); [reflexivity | lia]. }
  assert (Ee : sinceLastPulseMs (micros_at T2) (g_lastPulseMicros t')
               = (T2 - T1) / 1000).
  { rewrite Et. unfold sinceLastPulseMs, micros_at. cbn [g_lastPulseMicros].
    rewrite u32_idem, wrap_safe_sub by lia. reflexivity. }
  assert (Hok' : tracker_ok t') by (apply isr_ky024_ok, Hok).
  split; [rewrite Et; reflexivity|]. split.
  - intros Hfresh.
    assert (He : sinceLastPulseMs (micros_at T2) (g_lastPulseMicros t') <= 600).
    { rewrite Ee. apply Z.lt_succ_r. apply Z.div_lt_upper_bound; lia. }
    assert (Hn : g_lastIntervalMicros t' <> 0) by (rewrite Et; cbn; lia).
    destruct (kinematics_stock_rel (micros_at T2) t' Hok' He Hn)
      as (E1 & E2 & _).
    subst k g. replace (T1 - T0) with (g_lastIntervalMicros t')
      by (rewrite Et; reflexivity).
    split; assumption.
  - intros Hstale. subst k. apply kinematics_stale.
    rewrite Ee. change (u32 (NO_PULSE_TIMEOUT_MS stock)) with 600.
    assert (601 <= (T2 - T1) / 1000) by (apply Z.div_le_lower_bound; lia).
    lia.
Qed.

Lemma X6_witness :
  g_lastIntervalMicros
    (isr_ky024 stock (micros_at 4294970296)
       {| g_pulseCount := 41; g_lastPulseMicros := 4294965296;
          g_lastIntervalMicros := 5000 |}) = 5000 /\
  kinematics stock (micros_at 4295671296)
    (isr_ky024 stock (micros_at 4294970296)
       {| g_pulseCount := 41; g_lastPulseMicros := 4294965296;
          g_lastIntervalMicros := 5000 |}) = (lit_0f, lit_0f).
Proof.
  destruct (X6_accepted_edge_is_reported_then_times_out
              {| g_pulseCount := 41; g_lastPulseMicros := 4294965296;
                 g_lastIntervalMicros := 5000 |}
              4294965296 4294970296 4295671296) as (A & _ & C).
  - unfold tracker_ok. cbn. lia.
  - reflexivity.
  - lia.
  - lia.
  - lia.
  - split; [exact A | apply C; lia].
Defined.

(** ** The cadence of the sampler *)

Lemma u16_range x : 0 <= u16 x < 2 ^ 16.
Proof. unfold u16. apply Z.mod_pos_bound. lia. Qed.

Lemma loop_sends cfg inp snap s :
  100 <= sub32 (u32 (in_millis inp)) (lastSendMs s) ->
  loop cfg inp snap s =
    (let t := package (snd (kinematics cfg (in_micros inp) snap))
                      (fst (kinematics cfg (in_micros inp) snap))
                      (u16 (in_analog inp)) (u32 (in_millis inp)) in
     ({| lastSendMs := u32 (in_millis inp); tx := t |}, Some t)).
Proof.
  intros H. unfold loop. destruct (kinematics _ _ _) as [r v].
  apply Z.leb_le in H. rewrite H. reflexivity.
Qed.

Lemma loop_skips cfg inp snap s :
  sub32 (u32 (in_millis inp)) (lastSendMs s) < 100 ->
  loop cfg inp snap s = (s, None).
Proof.
  intros H. unfold loop. destruct (kinematics _ _ _) as [r v].
  apply Z.leb_gt in H. rewrite H. reflexivity.
Qed.

(** X7: the 100 ms cadence holds across a wrap of the millisecond
    counter.  After a run that notified at true time [M1] milliseconds, a
    run at [M2], not earlier and less than 2^32 ms later, notifies if and
    only if at least 100 ms have passed: before that it sends nothing and
    leaves [tx] and [lastSendMs] untouched; from then on it sends a record
    stamped with the reading at [M2] and remembers that reading. *)
Theorem X7_cadence_is_wrap_safe cfg inp1 snap1 s0 s1 t1 inp2 snap2 :
  loop cfg inp1 snap1 s0 = (s1, Some t1) ->
  in_millis inp1 <= in_millis inp2 ->
  in_millis inp2 - in_millis inp1 < 2 ^ 32 ->
  (in_millis inp2 - in_millis inp1 < 100 ->
   loop cfg inp2 snap2 s1 = (s1, None)) /\
  (100 <= in_millis inp2 - in_millis inp1 ->
   exists t2,
     loop cfg inp2 snap2 s1
       = ({| lastSendMs := u32 (in_millis inp2); tx := t2 |}, Some t2) /\
     millis_ts t2 = u32 (in_millis inp2)).
Proof.
  intros L H1 H2. apply loop_sample in L. destruct L as (_ & _ & Hs).
  assert (E : sub32 (u32 (in_millis inp2)) (lastSendMs s1)
              = in_millis inp2 - in_millis inp1).
  { rewrite Hs. apply wrap_safe_sub; lia. }
  split.
  - intros Hlt. apply loop_skips. lia.
  - intros Hge. eexists. split.
    + rewrite loop_sends by lia. cbv zeta. reflexivity.
    + reflexivity.
Qed.

Lemma X7_witness :
  loop stock {| in_millis := 4294967316; in_analog := 2000; in_micros := 0 |}
       startup
       {| lastSendMs := 4294967276;
          tx := package lit_0f lit_0f 2048 4294967276 |}
    = ({| lastSendMs := 4294967276;
          tx := package lit_0f lit_0f 2048 4294967276 |}, None).
Proof.
  destruct (X7_cadence_is_wrap_safe stock
              {| in_millis := 4294967276; in_analog := 2048; in_micros := 0 |}
              startup sampler0
              {| lastSendMs := 4294967276;
                 tx := package lit_0f lit_0f 2048 4294967276 |}
              (package lit_0f lit_0f 2048 4294967276)
              {| in_millis := 4294967316; in_analog := 2000; in_micros := 0 |}
              startup) as [A _].
  - vm_compute. reflexivity.
  - cbn. lia.
  - cbn. lia.
  - apply A. cbn. lia.
Defined.

Lemma sampler0_ok : sampler_ok sampler0.
Proof. unfold sampler_ok. cbn. repeat split; lia. Qed.

Lemma loop_sampler_ok cfg inp snap s :
  sampler_ok s -> sampler_ok (fst (loop cfg inp snap s)).
Proof.
  intros Hs.
  destruct (Z_le_gt_dec 100 (sub32 (u32 (in_millis inp)) (lastSendMs s)))
    as [H | H].
  - rewrite loop_sends by exact H. cbv zeta. unfold sampler_ok.
    cbn [fst tx lastSendMs package millis_ts hall_raw speed_kph speed_mps].
    pose proof (u32_range (in_millis inp)). pose proof (u16_range (in_analog inp)).
    repeat split; lia.
  - rewrite loop_skips by lia. exact Hs.
Qed.

Lemma run_loops_inv cfg ticks : forall s,
  sampler_ok s ->
  sampler_ok (fst (run_loops cfg ticks s)) /\
  tx (fst (run_loops cfg ticks s)) = last (snd (run_loops cfg ticks s)) (tx s) /\
  paced (lastSendMs s) (snd (run_loops cfg ticks s)) /\
  (length (snd (run_loops cfg ticks s)) <= length ticks)%nat /\
  Forall (fun t =>
            speed_kph t = F32.mul (speed_mps t) lit_3_6f /\
            0 <= hall_raw t < 2 ^ 16 /\ 0 <= millis_ts t < 2 ^ 32)
         (snd (run_loops cfg ticks s)).
Proof.
  induction ticks as [| [inp snap] rest IH]; intros s Hs.
  - cbn [run_loops fst snd last paced length].
    split; [exact Hs|]. repeat split; auto.
  - cbn [run_loops].
    pose proof (loop_sampler_ok cfg inp snap s Hs) as Hs1.
    destruct (Z_le_gt_dec 100 (sub32 (u32 (in_millis inp)) (lastSendMs s)))
      as [H | H].
    + rewrite loop_sends in * by exact H. cbv zeta in *. cbn [fst] in Hs1.
      set (t := package _ _ _ _) in *.
      set (s1 := {| lastSendMs := u32 (in_millis inp); tx := t |}) in *.
      destruct (IH s1 Hs1) as (A & B & C & D & E).
      destruct (run_loops cfg rest s1) as [s2 outs].
      cbn [fst snd] in *. split; [exact A|]. split.
      { rewrite last_cons. exact B. }
      split.
      { cbn [paced]. split; [exact H | exact C]. }
      split; [cbn [length]; lia|].
      constructor; [|exact E].
      pose proof (u32_range (in_millis inp)).
      pose proof (u16_range (in_analog inp)).
      subst t. cbn [package speed_kph speed_mps hall_raw millis_ts].
      repeat split; lia.
    + rewrite loop_skips in * by lia. cbn [fst] in Hs1.
      destruct (IH s Hs) as (A & B & C & D & E).
      destruct (run_loops cfg rest s) as [s2 outs].
      cbn [fst snd] in *.
      split; [exact A|]. split; [exact B|]. split; [exact C|].
      split; [cbn [length]; lia | exact E].
Qed.

(** X8: however often [loop] runs from power-up and whatever it reads, the
    stored record and send time stay consistent (the record's timestamp is
    the last send time, its km/h field the product of its m/s field by
    [3.6f]); the stored record is the last one notified; at most one record
    is notified per run; successive records carry timestamps at least 100
    apart in [uint32_t] arithmetic; and every record has its integer fields
    within their types. *)
Theorem X8_sampler_invariants cfg ticks :
  let r := run_loops cfg ticks sampler0 in
  sampler_ok (fst r) /\
  tx (fst r) = last (snd r) tx0 /\
  paced 0 (snd r) /\
  (length (snd r) <= length ticks)%nat /\
  Forall (fun t =>
            speed_kph t = F32.mul (speed_mps t) lit_3_6f /\
            0 <= hall_raw t < 2 ^ 16 /\ 0 <= millis_ts t < 2 ^ 32)
         (snd r).
Proof. exact (run_loops_inv cfg ticks sampler0 sampler0_ok). Qed.

(** ** Reading a record back from its bytes *)

Lemma bytes_of_slices t :
  slice 0 4 (bytes_of t) = le_split 4 (F32.bits (speed_mps t)) /\
  slice 4 4 (bytes_of t) = le_split 4 (F32.bits (speed_kph t)) /\
  slice 8 4 (bytes_of t) = le_split 4 (F32.bits (rpm t)) /\
  slice 12 2 (bytes_of t) = le_split 2 (hall_raw t) /\
  slice 14 4 (bytes_of t) = le_split 4 (millis_ts t).
Proof. unfold bytes_of, slice. repeat split. Qed.

Lemma le_combine_split4 z : 0 <= z < 2 ^ 32 -> le_combine (le_split 4 z) = z.
Proof. intros H. rewrite le_combine_split. apply Z.mod_small. exact H. Qed.

Lemma le_combine_split2 z : 0 <= z < 2 ^ 16 -> le_combine (le_split 2 z) = z.
Proof. intros H. rewrite le_combine_split. apply Z.mod_small. exact H. Qed.

(** X9: the integer fields of every record [loop] notifies can be read back
    from the bytes sent: bytes 12-13, little endian, are the analog reading
    reduced to 16 bits (the reading itself when it is a 12-bit ADC value),
    and bytes 14-17 are the [millis()] reading of that run. *)
Theorem X9_integer_fields_read_back cfg inp snap s s' t :
  loop cfg inp snap s = (s', Some t) ->
  le_combine (slice 12 2 (bytes_of t)) = u16 (in_analog inp) /\
  le_combine (slice 14 4 (bytes_of t)) = u32 (in_millis inp) /\
  (0 <= in_analog inp <= 4095 ->
   le_combine (slice 12 2 (bytes_of t)) = in_analog inp).
Proof.
  intros L. apply loop_sample in L. destruct L as (-> & _).
  destruct (bytes_of_slices
              (package (snd (kinematics cfg (in_micros inp) snap))
                       (fst (kinematics cfg (in_micros inp) snap))
                       (u16 (in_analog inp)) (u32 (in_millis inp))))
    as (_ & _ & _ & H & M).
  rewrite H, M. cbn [package hall_raw millis_ts].
  rewrite le_combine_split2 by apply u16_range.
  rewrite le_combine_split4 by apply u32_range.
  split; [reflexivity|]. split; [reflexivity|].
  intros R. unfold u16. apply Z.mod_small. lia.
Qed.

Lemma X9_witness :
  le_combine (slice 12 2 (bytes_of
    (package (S754_finite false 14092861 (-25))
             (S754_finite false 15728640 (-17)) 2048 1600))) = 2048 /\
  le_combine (slice 14 4 (bytes_of
    (package (S754_finite false 14092861 (-25))
             (S754_finite false 15728640 (-17)) 2048 1600))) = 1600.
Proof.
  destruct (X9_integer_fields_read_back stock
           {| in_millis := 1600; in_analog := 2048; in_micros := 1600000 |}
           {| g_pulseCount := 3; g_lastPulseMicros := 1500000;
              g_lastIntervalMicros := 500000 |} sampler0
           {| lastSendMs := 1600;
              tx := package (S754_finite false 14092861 (-25))
                            (S754_finite false 15728640 (-17)) 2048 1600 |}
           (package (S754_finite false 14092861 (-25))
                    (S754_finite false 15728640 (-17)) 2048 1600))
    as (A & B & _).
  - vm_compute. reflexivity.
  - split; [exact A | exact B].
Defined.

Lemma pnormal32_bounds m e :
  pnormal 24 128 (S754_finite false m e) ->
  2 ^ 23 <= Zpos m < 2 ^ 24 /\ -149 <= e <= 104.
Proof.
  cbn [pnormal]. intros [D E]. pose proof (digits2_pos_bounds m) as B.
  rewrite D in B. unfold emin in E. split; [exact B | lia].
Qed.

Lemma bits_pnormal m e :
  pnormal 24 128 (S754_finite false m e) ->
  F32.bits (S754_finite false m e)
    = (e + 150) * 8388608 + (Zpos m - 8388608) /\
  8388608 <= Zpos m < 16777216 /\ -149 <= e <= 104.
Proof.
  intros N. destruct (pnormal32_bounds m e N) as [Bm Be].
  assert (P23 : 2 ^ 23 = 8388608) by reflexivity.
  assert (P24 : 2 ^ 24 = 16777216) by reflexivity.
  rewrite P23, P24 in Bm.
  cbv beta iota delta [F32.bits]. rewrite P23.
  destruct (Z.ltb_spec (Zpos m) 8388608) as [L | L];
    [exfalso; clear - L Bm; lia|].
  split; [apply Z.add_0_l|]. split; [exact Bm | exact Be].
Qed.

Lemma bits_zero_or_pnormal_range x :
  zero_or_pnormal x -> 0 <= F32.bits x < 2 ^ 32.
Proof.
  intros [-> | N]; [change (F32.bits (S754_zero false)) with 0; lia|].
  destruct x as [[] | [] | | [] m e]; cbn [pnormal] in N; try tauto.
  destruct (bits_pnormal m e N) as (Eb & Bm & Be). rewrite Eb. lia.
Qed.

Lemma bits_zero_or_pnormal_inj x y :
  zero_or_pnormal x -> zero_or_pnormal y ->
  F32.bits x = F32.bits y -> x = y.
Proof.
  intros [-> | Nx] [-> | Ny] E.
  - reflexivity.
  - destruct y as [[] | [] | | [] m e]; cbn [pnormal] in Ny; try tauto.
    destruct (bits_pnormal m e Ny) as (Eb & Bm & Be).
    rewrite Eb in E. change (F32.bits (S754_zero false)) with 0 in E. lia.
  - destruct x as [[] | [] | | [] m e]; cbn [pnormal] in Nx; try tauto.
    destruct (bits_pnormal m e Nx) as (Eb & Bm & Be).
    rewrite Eb in E. change (F32.bits (S754_zero false)) with 0 in E. lia.
  - destruct x as [[] | [] | | [] m1 e1]; cbn [pnormal] in Nx; try tauto.
    destruct y as [[] | [] | | [] m2 e2]; cbn [pnormal] in Ny; try tauto.
    destruct (bits_pnormal m1 e1 Nx) as (Eb1 & Bm1 & Be1).
    destruct (bits_pnormal m2 e2 Ny) as (Eb2 & Bm2 & Be2).
    rewrite Eb1, Eb2 in E.
    assert (e1 = e2) by lia. subst e2.
    assert (Zpos m1 = Zpos m2) by lia. congruence.
Qed.

(** On records filled as the stock firmware fills them, the byte image
    determines every field. *)
Lemma bytes_of_inj t1 t2 :
  wire_ok t1 -> wire_ok t2 -> bytes_of t1 = bytes_of t2 -> t1 = t2.
Proof.
  intros (V1 & K1 & R1 & H1 & M1) (V2 & K2 & R2 & H2 & M2) E.
  destruct (bytes_of_slices t1) as (A1 & B1 & C1 & D1 & E1).
  destruct (bytes_of_slices t2) as (A2 & B2 & C2 & D2 & E2).
  rewrite E in A1, B1, C1, D1, E1.
  rewrite A2 in A1. rewrite B2 in B1. rewrite C2 in C1.
  rewrite D2 in D1. rewrite E2 in E1.
  apply (f_equal le_combine) in A1, B1, C1, D1, E1.
  rewrite !le_combine_split4 in A1, B1, C1, E1
    by (try apply bits_zero_or_pnormal_range; assumption).
  rewrite !le_combine_split2 in D1 by assumption.
  apply bits_zero_or_pnormal_inj in A1, B1, C1; try assumption.
  destruct t1, t2.
  cbn [speed_mps speed_kph rpm hall_raw millis_ts] in *. congruence.
Qed.

Local Open Scope Q_scope.

Lemma speed_kph_pnormal v :
  pnormal 24 128 v -> (1 # 67108864) <= SF2Q v -> SF2Q v <= 262144 ->
  pnormal 24 128 (F32.mul v lit_3_6f).
Proof.
  intros Nv L U. unfold F32.mul, F32.prec, F32.emax.
  assert (P24 : (0 < 24)%Z) by lia.
  assert (Vc : SF2Q lit_3_6f == 15099494 # 4194304) by reflexivity.
  destruct (SFmul_rel 24 128 P24 v lit_3_6f Nv pnormal_lit_3_6f) as [N _].
  { rewrite Vc. above_pow2 (-30)%Z. }
  { rewrite Vc. below_pow2 30%Z. }
  exact N.
Qed.

Local Open Scope Z_scope.

Lemma loop_stock_wire_ok inp snap s s' t :
  loop stock inp snap s = (s', Some t) -> wire_ok t.
Proof.
  intros L. apply loop_sample in L. destruct L as (-> & _).
  unfold wire_ok. cbn [package speed_mps speed_kph rpm hall_raw millis_ts].
  pose proof (u32_range (in_millis inp)).
  pose proof (u16_range (in_analog inp)).
  assert (R : zero_or_pnormal (fst (kinematics stock (in_micros inp) snap))).
  { unfold kinematics. destruct (_ && _); cbn [fst]; [|left; reflexivity].
    destruct (rpmFromInterval_cases (g_lastIntervalMicros snap)
                (MAGNETS_PER_REV stock)) as [-> | N];
      [left; reflexivity | right; exact N]. }
  destruct (kinematics_stock_cases (in_micros inp) snap)
    as [K | (N & Lo & Hi)].
  - rewrite K. cbn [fst snd].
    repeat split; try lia; left; reflexivity.
  - split; [right; exact N|]. split; [|split; [exact R | lia]].
    right. apply speed_kph_pnormal; assumption.
Qed.

(** X10: with the stock calibration the 18 bytes notified determine the
    record: two records produced by [loop] that have the same byte image
    have the same five fields, so a client loses nothing to the
    encoding. *)
Theorem X10_stock_records_are_determined_by_their_bytes
  inp1 snap1 s1 s1' t1 inp2 snap2 s2 s2' t2 :
  loop stock inp1 snap1 s1 = (s1', Some t1) ->
  loop stock inp2 snap2 s2 = (s2', Some t2) ->
  bytes_of t1 = bytes_of t2 -> t1 = t2.
Proof.
  intros L1 L2. apply bytes_of_inj; eapply loop_stock_wire_ok; eassumption.
Qed.

Lemma X10_witness :
  package (S754_finite false 14092861 (-25))
          (S754_finite false 15728640 (-17)) 2048 1600
  = package (S754_finite false 14092861 (-25))
            (S754_finite false 15728640 (-17)) 2048 1600.
Proof.
  apply (X10_stock_records_are_determined_by_their_bytes
           {| in_millis := 1600; in_analog := 2048; in_micros := 1600000 |}
           {| g_pulseCount := 3; g_lastPulseMicros := 1500000;
              g_lastIntervalMicros := 500000 |} sampler0
           {| lastSendMs := 1600;
              tx := package (S754_finite false 14092861 (-25))
                            (S754_finite false 15728640 (-17)) 2048 1600 |}
           (package (S754_finite false 14092861 (-25))
                    (S754_finite false 15728640 (-17)) 2048 1600)
           {| in_millis := 1600; in_analog := 67584; in_micros := 4296567296 |}
           {| g_pulseCount := 9; g_lastPulseMicros := 1500000;
              g_lastIntervalMicros := 500000 |}
           {| lastSendMs := 1500; tx := tx0 |}
           {| lastSendMs := 1600;
              tx := package (S754_finite false 14092861 (-25))
                            (S754_finite false 15728640 (-17)) 2048 1600 |}
           (package (S754_finite false 14092861 (-25))
                    (S754_finite false 15728640 (-17)) 2048 1600)).
  - vm_compute. reflexivity.
  - vm_compute. reflexivity.
  - reflexivity.
Defined.

(** ** Bursts of contact bounce *)

(** X11: any number of pin changes that follow an accepted edge by less
    than the debounce floor are all dropped: after the whole burst the
    tracker is exactly as the accepted edge left it, with the count up by
    one. *)
Theorem X11_a_burst_counts_once cfg t m0 ms :
  u32 (MIN_PULSE_GAP_US cfg) <= sub32 (u32 m0) (g_lastPulseMicros t) ->
  Forall (fun m => sub32 (u32 m) (u32 m0) < u32 (MIN_PULSE_GAP_US cfg)) ms ->
  run_edges cfg (m0 :: ms) t = isr_ky024 cfg m0 t /\
  g_pulseCount (run_edges cfg (m0 :: ms) t) = add32 (g_pulseCount t) 1 /\
  g_lastPulseMicros (run_edges cfg (m0 :: ms) t) = u32 m0.
Proof.
  intros Hacc Hb.
  change (run_edges cfg (m0 :: ms) t)
    with (run_edges cfg ms (isr_ky024 cfg m0 t)).
  rewrite (isr_ky024_accept cfg m0 t Hacc).
  set (t1 := {| g_pulseCount := add32 (g_pulseCount t) 1;
                g_lastPulseMicros := u32 m0;
                g_lastIntervalMicros := sub32 (u32 m0) (g_lastPulseMicros t) |}).
  assert (E : run_edges cfg ms t1 = t1).
  { induction Hb as [| m ms Hm Hb IH]; [reflexivity|].
    change (run_edges cfg (m :: ms) t1)
      with (run_edges cfg ms (isr_ky024 cfg m t1)).
    rewrite isr_ky024_reject by exact Hm. exact IH. }
  rewrite E. repeat split.
Qed.

Lemma X11_witness :
  run_edges stock [20000; 20300; 20900; 21999] startup
    = isr_ky024 stock 20000 startup /\
  g_pulseCount (run_edges stock [20000; 20300; 20900; 21999] startup) = 1.
Proof.
  destruct (X11_a_burst_counts_once stock startup 20000 [20300; 20900; 21999])
    as (A & B & _).
  - vm_compute. congruence.
  - repeat constructor.
  - split; [exact A | exact B].
Defined.

(** ** The interrupt mask around the snapshot *)

Lemma step_mask_inv cfg m m' :
  step cfg m m' ->
  match at_pc m with
  | L138 => True
  | L143 => irq_enabled m = true
  | _ => irq_enabled m = false
  end ->
  match at_pc m' with
  | L138 => True
  | L143 => irq_enabled m' = true
  | _ => irq_enabled m' = false
  end.
Proof.
  intros S J. destruct S as [m Hn | m micros Hirq].
  - unfold exec. revert J Hn.
    destruct (at_pc m); intros J Hn; cbn [at_pc irq_enabled]; auto.
    congruence.
  - unfold interrupt. cbn [at_pc irq_enabled]. exact J.
Qed.

(** X12: the snapshot section masks interrupts exactly while its three
    reads run and always leaves them enabled: in every state reached from
    its entry, interrupts are disabled at the three reads and at the closing
    [interrupts()], and enabled once the section is left, whether or not
    they were enabled on entry. *)
Theorem X12_section_masks_then_reenables cfg m0 m :
  at_pc m0 = L138 -> steps cfg m0 m ->
  match at_pc m with
  | L138 => True
  | L143 => irq_enabled m = true
  | _ => irq_enabled m = false
  end.
Proof.
  intros H0 Hrun.
  assert (J0 : match at_pc m0 with
               | L138 => True
               | L143 => irq_enabled m0 = true
               | _ => irq_enabled m0 = false
               end) by (rewrite H0; exact I).
  clear H0. induction Hrun as [m | m1 m2 m3 S1 S2 IH]; [exact J0|].
  apply IH. apply (step_mask_inv cfg m1 m2 S1 J0).
Qed.

Lemma X12_witness :
  irq_enabled
    (exec (exec (exec (exec (exec
       {| globals := startup; irq_enabled := false; at_pc := L138;
          lastPulseMicrosSnapshot := 0; lastIntervalMicrosSnapshot := 0;
          pulseCountSnapshot := 0 |}))))) = true.
Proof.
  refine (X12_section_masks_then_reenables stock
            {| globals := startup; irq_enabled := false; at_pc := L138;
               lastPulseMicrosSnapshot := 0; lastIntervalMicrosSnapshot := 0;
               pulseCountSnapshot := 0 |}
            (exec (exec (exec (exec (exec
               {| globals := startup; irq_enabled := false; at_pc := L138;
                  lastPulseMicrosSnapshot := 0;
                  lastIntervalMicrosSnapshot := 0;
                  pulseCountSnapshot := 0 |}))))) _ _).
  - reflexivity.
  - do 5 (eapply steps_cons; [apply step_stmt; cbn; congruence|]).
    apply steps_refl.
Defined.
